(** * KVMD configuration bootstrap and plugin registry

    A shallow embedding of [kvmd/apps/__init__.py] (override merging,
    scheme selection, the two-pass configuration build) and of
    [kvmd/plugins/__init__.py] (the plugin base class and the cached
    plugin lookup), together with the properties the design document
    states about them. *)

From Stdlib Require Import Ascii String QArith.
From stdpp Require Import base option list strings gmap.

Open Scope string_scope.
Open Scope list_scope.
Open Scope nat_scope.

(** ** Python values

    A YAML document, an option default and a resolved leaf are all Python
    values.  A [dict] keeps its insertion order, so it is an association
    list; the embedding only ever builds such lists through [dict_set],
    which keeps the keys distinct. *)

#[warnings="-register-all"]
Inductive value : Type :=
  | VNone
  | VBool (b : bool)
  | VInt (z : Z)
  | VFloat (q : Q)
  | VStr (s : string)
  | VList (l : list value)
  | VDict (d : list (string * value)).

Abbreviation dict := (list (string * value)).

(** [key in d] and [d[key]] for any association list keyed by strings. *)
Fixpoint dict_get {A : Type} (d : list (string * A)) (key : string) : option A :=
  match d with
  | [] => None
  | (k, v) :: rest => if decide (k = key) then Some v else dict_get rest key
  end.

(** [d[key] = v]: an existing key keeps its position, a new key goes last. *)
Fixpoint dict_set {A : Type} (d : list (string * A)) (key : string) (v : A)
  : list (string * A) :=
  match d with
  | [] => [(key, v)]
  | (k, w) :: rest =>
      if decide (k = key) then (k, v) :: rest else (k, w) :: dict_set rest key v
  end.

Definition dict_keys {A : Type} (d : list (string * A)) : list string := d.*1.

(** ** [_merge_dicts]

    The Python function mutates [dest] in place and returns nothing; here
    the updated [dest] is the result.  The loop runs over the keys of
    [src] in order.  [value] is nested through [list], so the loop is an
    inner [fix] over the items of [src] and the recursive call descends
    into the value stored under the key; [_merge_dicts_nil] and
    [_merge_dicts_cons] give the recursion in the shape of the source. *)

Fixpoint merge_into (sv : value) (dest : dict) {struct sv} : dict :=
  match sv with
  | VDict src =>
      (fix loop (src : dict) (dest : dict) {struct src} : dict :=
         match src with
         | [] => dest
         | (key, sv) :: rest =>
             loop rest
               match dict_get dest key, sv with
               | Some (VDict dd), VDict _ => dict_set dest key (VDict (merge_into sv dd))
               | _, _ => dict_set dest key sv
               end
         end) src dest
  | _ => dest
  end.

Definition _merge_dicts (dest : dict) (src : dict) : dict :=
  merge_into (VDict src) dest.

(** ** The configuration scheme

    The validators live in [kvmd.validators]; the scheme refers to them
    by name.  The two [lambda]s of the scheme wrap [valid_number] with
    fixed keyword arguments. *)

Inductive validator : Type :=
  | valid_bool
  | valid_number_min (min : value) (as_float : bool)
  | valid_int_f1
  | valid_float_f01
  | valid_users_list
  | valid_abs_path
  | valid_abs_path_exists
  | valid_unix_mode
  | valid_command
  | valid_ip_or_host
  | valid_port
  | valid_stream_quality
  | valid_stream_fps
  | valid_tty_speed
  | valid_gpio_pin
  | valid_gpio_pin_optional.

(** Modelled from the spec: the class [Option] of [kvmd.yamlconf] is not
    part of the sources at hand.  By the data model an option is its
    default, its validator, its conditional-inclusion rule and its
    alternate binding name; the scheme passes them as the first
    argument, [type=], [only_if=] and [unpack_as=], and leaves out what
    it does not set. *)
Record Option : Type := mkOption {
  opt_default : value;
  opt_type : option validator;
  opt_only_if : string;
  opt_unpack_as : string;
}.

#[warnings="-register-all"]
Inductive scheme_node : Type :=
  | SOpt (o : Option)
  | SDict (children : list (string * scheme_node)).

Abbreviation scheme := (list (string * scheme_node)).

(** [Option(default)], [Option(default, type=t)], and the two keyword
    arguments [only_if=] and [unpack_as=]. *)
Definition opt (default : value) : Option := mkOption default None "" "".
Definition opt_t (default : value) (type : validator) : Option :=
  mkOption default (Some type) "" "".
Definition with_only_if (o : Option) (only_if : string) : Option :=
  mkOption (opt_default o) (opt_type o) only_if (opt_unpack_as o).
Definition with_unpack_as (o : Option) (unpack_as : string) : Option :=
  mkOption (opt_default o) (opt_type o) (opt_only_if o) unpack_as.

Definition access_log_format : string :=
  "[%P / %{X-Real-IP}i] '%r' => %s; size=%b ---"
  +:+ " referer='%{Referer}i'; user_agent='%{User-Agent}i'".

Definition scheme_kvmd_server : scheme := [
  ("host",              SOpt (opt_t (VStr "localhost") valid_ip_or_host));
  ("port",              SOpt (opt_t (VInt 0) valid_port));
  ("unix",              SOpt (with_unpack_as (with_only_if (opt_t (VStr "") valid_abs_path) "!port") "unix_path"));
  ("unix_rm",           SOpt (opt_t (VBool false) valid_bool));
  ("unix_mode",         SOpt (opt_t (VInt 0) valid_unix_mode));
  ("heartbeat",         SOpt (opt_t (VFloat 3.0) valid_float_f01));
  ("access_log_format", SOpt (opt (VStr access_log_format)))
].

Definition scheme_kvmd_auth : scheme := [
  ("internal_type",  SOpt (opt (VStr "htpasswd")));
  ("external_type",  SOpt (opt (VStr "")));
  ("internal_users", SOpt (opt_t (VList []) valid_users_list))
].

Definition scheme_kvmd_info : scheme := [
  ("meta",   SOpt (with_unpack_as (opt_t (VStr "/etc/kvmd/meta.yaml") valid_abs_path_exists) "meta_path"));
  ("extras", SOpt (with_unpack_as (opt_t (VStr "/usr/share/kvmd/extras") valid_abs_path_exists) "extras_path"))
].

Definition scheme_kvmd_hid : scheme := [
  ("reset_pin",      SOpt (opt_t (VInt (-1)) valid_gpio_pin));
  ("reset_delay",    SOpt (opt_t (VFloat 0.1) valid_float_f01));
  ("device",         SOpt (with_unpack_as (opt_t (VStr "") valid_abs_path) "device_path"));
  ("speed",          SOpt (opt_t (VInt 115200) valid_tty_speed));
  ("read_timeout",   SOpt (opt_t (VFloat 2.0) valid_float_f01));
  ("read_retries",   SOpt (opt_t (VInt 10) valid_int_f1));
  ("common_retries", SOpt (opt_t (VInt 100) valid_int_f1));
  ("retries_delay",  SOpt (opt_t (VFloat 0.1) valid_float_f01));
  ("noop",           SOpt (opt_t (VBool false) valid_bool));
  ("state_poll",     SOpt (opt_t (VFloat 0.1) valid_float_f01))
].

Definition scheme_kvmd_atx : scheme := [
  ("enabled",            SOpt (opt_t (VBool true) valid_bool));
  ("power_led_pin",      SOpt (with_only_if (opt_t (VInt (-1)) valid_gpio_pin) "enabled"));
  ("hdd_led_pin",        SOpt (with_only_if (opt_t (VInt (-1)) valid_gpio_pin) "enabled"));
  ("power_led_inverted", SOpt (opt_t (VBool true) valid_bool));
  ("hdd_led_inverted",   SOpt (opt_t (VBool true) valid_bool));
  ("power_switch_pin",   SOpt (with_only_if (opt_t (VInt (-1)) valid_gpio_pin) "enabled"));
  ("reset_switch_pin",   SOpt (with_only_if (opt_t (VInt (-1)) valid_gpio_pin) "enabled"));
  ("click_delay",        SOpt (opt_t (VFloat 0.1) valid_float_f01));
  ("long_click_delay",   SOpt (opt_t (VFloat 5.5) valid_float_f01));
  ("state_poll",         SOpt (opt_t (VFloat 0.1) valid_float_f01))
].

Definition scheme_kvmd_msd : scheme := [
  ("enabled",     SOpt (opt_t (VBool true) valid_bool));
  ("target_pin",  SOpt (with_only_if (opt_t (VInt (-1)) valid_gpio_pin) "enabled"));
  ("reset_pin",   SOpt (with_only_if (opt_t (VInt (-1)) valid_gpio_pin) "enabled"));
  ("device",      SOpt (with_unpack_as (with_only_if (opt_t (VStr "") valid_abs_path) "enabled") "device_path"));
  ("init_delay",  SOpt (opt_t (VFloat 2.0) valid_float_f01));
  ("reset_delay", SOpt (opt_t (VFloat 1.0) valid_float_f01));
  ("write_meta",  SOpt (opt_t (VBool true) valid_bool));
  ("chunk_size",  SOpt (opt_t (VInt 65536) (valid_number_min (VInt 1024) false)))
].

Definition scheme_kvmd_streamer : scheme := [
  ("cap_pin",            SOpt (opt_t (VInt (-1)) valid_gpio_pin_optional));
  ("conv_pin",           SOpt (opt_t (VInt (-1)) valid_gpio_pin_optional));
  ("sync_delay",         SOpt (opt_t (VFloat 1.0) valid_float_f01));
  ("init_delay",         SOpt (opt_t (VFloat 1.0) valid_float_f01));
  ("init_restart_after", SOpt (opt_t (VFloat 0.0) (valid_number_min (VFloat 0.0) true)));
  ("shutdown_delay",     SOpt (opt_t (VFloat 10.0) valid_float_f01));
  ("state_poll",         SOpt (opt_t (VFloat 1.0) valid_float_f01));
  ("quality",            SOpt (opt_t (VInt 80) valid_stream_quality));
  ("desired_fps",        SOpt (opt_t (VInt 0) valid_stream_fps));
  ("host",               SOpt (opt_t (VStr "localhost") valid_ip_or_host));
  ("port",               SOpt (opt_t (VInt 0) valid_port));
  ("unix",               SOpt (with_unpack_as (with_only_if (opt_t (VStr "") valid_abs_path) "!port") "unix_path"));
  ("timeout",            SOpt (opt_t (VFloat 2.0) valid_float_f01));
  ("cmd",                SOpt (opt_t (VList [VStr "/bin/true"]) valid_command))
].

Definition scheme_kvmd : scheme := [
  ("server",   SDict scheme_kvmd_server);
  ("auth",     SDict scheme_kvmd_auth);
  ("info",     SDict scheme_kvmd_info);
  ("hid",      SDict scheme_kvmd_hid);
  ("atx",      SDict scheme_kvmd_atx);
  ("msd",      SDict scheme_kvmd_msd);
  ("streamer", SDict scheme_kvmd_streamer)
].

Definition scheme_ipmi : scheme := [
  ("server", SDict [
     ("host",    SOpt (opt_t (VStr "::") valid_ip_or_host));
     ("port",    SOpt (opt_t (VInt 623) valid_port));
     ("timeout", SOpt (opt_t (VFloat 10.0) valid_float_f01))
   ]);
  ("kvmd", SDict [
     ("host",    SOpt (with_unpack_as (opt_t (VStr "localhost") valid_ip_or_host) "kvmd_host"));
     ("port",    SOpt (with_unpack_as (opt_t (VInt 0) valid_port) "kvmd_port"));
     ("unix",    SOpt (with_unpack_as (with_only_if (opt_t (VStr "") valid_abs_path) "!port") "kvmd_unix_path"));
     ("timeout", SOpt (with_unpack_as (opt_t (VFloat 5.0) valid_float_f01) "kvmd_timeout"))
   ]);
  ("auth", SDict [
     ("file", SOpt (with_unpack_as (opt_t (VStr "/etc/kvmd/ipmipasswd") valid_abs_path_exists) "path"))
   ])
].

(** [_get_config_scheme]: the literal scheme, then the selection.  The
    dict comprehension walks [scheme.items()] in order and keeps the
    items whose key is [in sections]; an empty list is falsy. *)
Definition _get_config_scheme (sections : list string) : scheme :=
  let scheme : scheme := [
    ("logging", SOpt (opt (VDict [])));
    ("kvmd",    SDict scheme_kvmd);
    ("ipmi",    SDict scheme_ipmi)
  ] in
  match sections with
  | _ :: _ => filter (λ item, item.1 ∈ sections) scheme
  | [] => scheme
  end.

(** ** Exceptions and results

    A call either returns or raises.  Only the exception classes the two
    modules raise, catch or let through are distinguished; [str(err)] of
    each is the message it was built with. *)

Inductive exn : Type :=
  | UnknownPluginError (msg : string)
  | ModuleNotFoundError (msg : string)
  | ImportError (msg : string)
  | AttributeError (msg : string)
  | ValueError (msg : string)
  | KeyError (key : string)
  | TypeError (msg : string)
  | ConfigError (msg : string)
  | SystemExit (msg : string)
  | OtherError (class_name msg : string).

Definition exn_str (err : exn) : string :=
  match err with
  | UnknownPluginError msg | ModuleNotFoundError msg | ImportError msg
  | AttributeError msg | ValueError msg | TypeError msg | ConfigError msg
  | SystemExit msg | OtherError _ msg => msg
  | KeyError key => "'" +:+ key +:+ "'"
  end.

Inductive result (A : Type) : Type :=
  | Ok (a : A)
  | Raise (err : exn).
Arguments Ok {A} a.
Arguments Raise {A} err.

(** ** [kvmd.plugins]: the plugin base class *)

(** [name.rindex(".")]: the index of the last dot, if there is one. *)
Fixpoint str_rindex_dot (name : string) : option nat :=
  match name with
  | EmptyString => None
  | String c rest =>
      match str_rindex_dot rest with
      | Some i => Some (S i)
      | None => if decide (c = "."%char) then Some 0 else None
      end
  end.

(** [name[n:]]. *)
Fixpoint str_from (n : nat) (name : string) : string :=
  match n, name with
  | 0, _ => name
  | S n', String _ rest => str_from n' rest
  | S _, EmptyString => EmptyString
  end.

(** A plugin type: a class object.  [cls_id] is the identity of the
    object, [cls_module] its [__module__], and [cls_plugin_options] the
    fragment its own [get_plugin_options] returns when the class
    overrides the method. *)
Record plugin_class : Type := mkPluginClass {
  cls_id : nat;
  cls_module : string;
  cls_plugin_options : option scheme;
}.

Definition BasePlugin : plugin_class := mkPluginClass 0 "kvmd.plugins" None.

Definition get_plugin_name (cls : plugin_class) : result string :=
  let name := cls_module cls in
  match str_rindex_dot name with
  | Some i => Ok (str_from (i + 1) name)
  | None => Raise (ValueError "substring not found")
  end.

(** The body of [BasePlugin.get_plugin_options] is [return {}]; a
    subclass that defines the method shadows it. *)
Definition get_plugin_options (cls : plugin_class) : scheme :=
  match cls_plugin_options cls with
  | Some options => options
  | None => []
  end.

(** ** [kvmd.plugins]: the cached lookup *)

(** [functools.lru_cache()] with its default [maxsize=128]: the entries,
    most recently used first.  A hit moves the entry to the front; a miss
    calls the function, stores a returned value and drops the least
    recently used entry when the cache is full; an exception is not
    stored.  The key of an entry is the pair of arguments of a positional
    call [get_plugin_class(sub, name)], the call this development models;
    [lru_cache] keeps a call that passes an argument by keyword under a
    key of its own. *)
Definition lru_maxsize : nat := 128.

Section lru_cache.
Context {K V : Type} `{EqDecision K}.

Fixpoint cache_get (cache : list (K * V)) (key : K) : option V :=
  match cache with
  | [] => None
  | (k, v) :: rest => if decide (k = key) then Some v else cache_get rest key
  end.

Definition cache_remove (cache : list (K * V)) (key : K) : list (K * V) :=
  filter (λ entry, entry.1 ≠ key) cache.

Definition lru_call (f : K → result V) (key : K) (cache : list (K * V))
  : result V * list (K * V) :=
  match cache_get cache key with
  | Some v => (Ok v, (key, v) :: cache_remove cache key)
  | None =>
      match f key with
      | Ok v => (Ok v, take lru_maxsize ((key, v) :: cache))
      | Raise err => (Raise err, cache)
      end
  end.

(** A cache all of whose entries are what [f] returns for their key;
    the empty cache of a fresh process is one. *)
Definition cache_agrees (f : K → result V) (cache : list (K * V)) : Prop :=
  Forall (λ entry, f entry.1 = Ok entry.2) cache.

(** [key] is cached with [v], and the entries in front of it are for
    distinct keys, all among [seen]. *)
Definition cached_behind (key : K) (v : V) (seen : list K) (cache : list (K * V))
  : Prop :=
  ∃ pre post,
    cache = pre ++ (key, v) :: post
    ∧ (key ∉ pre.*1) ∧ NoDup pre.*1 ∧ pre.*1 ⊆ seen.
End lru_cache.

(** What [importlib.import_module] finds: a module that imports cleanly
    is the mapping of its class attributes; a module whose import raises
    is that exception; a name that is not bound cannot be found. *)
Abbreviation pymodule := (gmap string plugin_class).
Abbreviation modules := (gmap string (result pymodule)).

Definition import_module (mods : modules) (name : string) : result pymodule :=
  match mods !! name with
  | Some imported => imported
  | None => Raise (ModuleNotFoundError ("No module named '" +:+ name +:+ "'"))
  end.

Definition getattr (module_name : string) (module : pymodule) (attr : string)
  : result plugin_class :=
  match module !! attr with
  | Some cls => Ok cls
  | None =>
      Raise (AttributeError
               ("module '" +:+ module_name +:+ "' has no attribute '" +:+ attr +:+ "'"))
  end.

Definition plugin_module_name (sub name : string) : string :=
  "kvmd.plugins." +:+ sub +:+ "." +:+ name.

(** The undecorated function. *)
Definition get_plugin_class_uncached (mods : modules) (key : string * string)
  : result plugin_class :=
  let '(sub, name) := key in
  match import_module mods (plugin_module_name sub name) with
  | Raise (ModuleNotFoundError _) =>
      Raise (UnknownPluginError ("Unknown plugin '" +:+ sub +:+ "/" +:+ name +:+ "'"))
  | Raise err => Raise err
  | Ok module => getattr (plugin_module_name sub name) module "Plugin"
  end.

Abbreviation plugin_cache := (list ((string * string) * plugin_class)).

Definition get_plugin_class (mods : modules) (sub name : string) (cache : plugin_cache)
  : result plugin_class * plugin_cache :=
  lru_call (get_plugin_class_uncached mods) (sub, name) cache.

(** A run of lookups against one module environment, threading the
    cache: the results in call order and the final cache. *)
Fixpoint run_lookups (mods : modules) (calls : list (string * string)) (cache : plugin_cache)
  : list (result plugin_class) * plugin_cache :=
  match calls with
  | [] => ([], cache)
  | (sub, name) :: rest =>
      let '(r, cache') := get_plugin_class mods sub name cache in
      let '(rs, cache'') := run_lookups mods rest cache' in
      (r :: rs, cache'')
  end.

(** ** [kvmd.apps]: building the configuration

    [_init_config] calls into modules that are not part of this
    development: the YAML loader, the option parser and the resolver of
    [kvmd.yamlconf], and [get_auth_service_class] of [kvmd.plugins.auth].
    They are taken as an interface.  Each of them may read or change
    state outside the function (the file system, the import system, the
    plugin cache), so each is a transition on a [world], and each may
    raise.  [ConfigSection] is [yamlconf.Section], the resolved
    configuration; [auth_internal_type] and [auth_external_type] read
    [config.kvmd.auth.internal_type] and [config.kvmd.auth.external_type],
    both strings by their options' defaults. *)

Class Collaborators : Type := {
  world : Type;
  ConfigSection : Type;
  expanduser : string → string;
  load_yaml_file : string → world → result dict * world;
  build_raw_from_options : list string → world → result dict * world;
  make_config : dict → scheme → world → result ConfigSection * world;
  get_auth_service_class : string → world → result plugin_class * world;
  auth_internal_type : ConfigSection → string;
  auth_external_type : ConfigSection → string;
}.

(** Computations over the world that may raise. *)
Definition M `{Collaborators} (A : Type) : Type := world → result A * world.

Definition ret `{Collaborators} {A} (a : A) : M A := λ w, (Ok a, w).
Definition raise `{Collaborators} {A} (err : exn) : M A := λ w, (Raise err, w).
Definition bind `{Collaborators} {A B} (m : M A) (k : A → M B) : M B :=
  λ w, match m w with
       | (Ok a, w') => k a w'
       | (Raise err, w') => (Raise err, w')
       end.
Definition try_except `{Collaborators} {A} (m : M A) (handler : exn → M A) : M A :=
  λ w, match m w with
       | (Ok a, w') => (Ok a, w')
       | (Raise err, w') => handler err w'
       end.
Definition lift `{Collaborators} {A} (r : result A) : M A := λ w, (r, w).

#[global] Instance M_ret `{Collaborators} : MRet M := @ret _.
#[global] Instance M_bind `{Collaborators} : MBind M := λ A B k m, bind m k.

(** [d[key]] where [d] has to be a nested scheme dict. *)
Definition scheme_getitem (d : scheme) (key : string) : result scheme :=
  match dict_get d key with
  | Some (SDict sub) => Ok sub
  | Some (SOpt _) => Raise (TypeError "'Option' object is not subscriptable")
  | None => Raise (KeyError key)
  end.

(** [scheme["kvmd"]["auth"][slot] = options].  The nested dicts are
    mutated in place; here the path is rebuilt around the new entry. *)
Definition scheme_set_auth (sch : scheme) (slot : string) (options : scheme)
  : result scheme :=
  match scheme_getitem sch "kvmd" with
  | Raise err => Raise err
  | Ok kvmd =>
      match scheme_getitem kvmd "auth" with
      | Raise err => Raise err
      | Ok auth =>
          Ok (dict_set sch "kvmd"
                (SDict (dict_set kvmd "auth" (SDict (dict_set auth slot (SDict options))))))
      end
  end.

(** Truth value of a string. *)
Definition str_truthy (s : string) : bool :=
  match s with
  | EmptyString => false
  | String _ _ => true
  end.

(** The [except (ConfigError, UnknownPluginError) as err] clause: these
    two become [SystemExit("Config error: ...")]; any other exception is
    not caught. *)
Definition exit_on_config_error `{Collaborators} {A} (err : exn) : M A :=
  match err with
  | ConfigError _ | UnknownPluginError _ =>
      raise (SystemExit ("Config error: " +:+ exn_str err))
  | _ => raise err
  end.

Definition _init_config `{Collaborators}
    (config_path : string) (sections : list string) (override_options : list string)
  : M ConfigSection :=
  let config_path := expanduser config_path in
  raw_config ← load_yaml_file config_path;
  let scheme := _get_config_scheme sections in
  try_except
    (overrides ← build_raw_from_options override_options;
     let raw_config := _merge_dicts raw_config overrides in
     config ← make_config raw_config scheme;
     if bool_decide ("kvmd" ∈ sections) then
       internal ← get_auth_service_class (auth_internal_type config);
       scheme ← lift (scheme_set_auth scheme "internal" (get_plugin_options internal));
       scheme ←
         (if str_truthy (auth_external_type config) then
            external ← get_auth_service_class (auth_external_type config);
            lift (scheme_set_auth scheme "external" (get_plugin_options external))
          else ret scheme);
       make_config raw_config scheme
     else ret config)
    exit_on_config_error.

(** ** The Config Resolver

    The design document describes the resolver that [make_config]
    implements: per section, the options without a conditional rule
    first, then the dependent ones, then the child sections, collecting
    every leaf failure on the way. *)

Module Resolver.

(** Modelled from the spec: whether a resolved sibling "resolves
    truthy".  The Python truth value of the value. *)
Definition truthy (v : value) : bool :=
  match v with
  | VNone => false
  | VBool b => b
  | VInt z => negb (Z.eqb z 0)
  | VFloat q => negb (Qeq_bool q 0)
  | VStr s => str_truthy s
  | VList l => match l with [] => false | _ :: _ => true end
  | VDict d => match d with [] => false | _ :: _ => true end
  end.

(** Modelled from the spec: the conditional-inclusion rule of an
    option, as the typed predicate of the design notes. *)
Inductive predicate : Type :=
  | Always
  | IfTrue (sibling : string)
  | IfFalse (sibling : string).

(** Modelled from the spec: [only_if] is a sibling's name, negated by a
    leading [!]; the empty string is no rule. *)
Definition parse_only_if (only_if : string) : predicate :=
  match only_if with
  | EmptyString => Always
  | String c rest => if decide (c = "!"%char) then IfFalse rest else IfTrue only_if
  end.

(** Modelled from the spec: a recorded leaf failure [(path, message)],
    the path of the option below the resolved section and the
    validator's message. *)
Definition failure : Type := list string * string.

(** Modelled from the spec: the outcome of one pass, the Resolved
    Section or the [ConfigError] with all the collected failures. *)
Inductive resolution : Type :=
  | Resolved (section : dict)
  | ConfigErrorWith (failures : list failure).

Section resolve.
(** The Validator Library: a raw value to a typed value, or a
    validation failure with its message. *)
Variable validate : option validator → value → string + value.

(** Modelled from the spec: step 1, the raw value at the key, else the
    option's default. *)
Definition raw_value (raw : dict) (name : string) (o : Option) : value :=
  default (opt_default o) (dict_get raw name).

(** Modelled from the spec: step 4, the sub-mapping of [raw], the empty
    mapping if absent. *)
Definition sub_raw (raw : dict) (name : string) : dict :=
  match dict_get raw name with
  | Some (VDict d) => d
  | _ => []
  end.

(** Modelled from the spec: step 3 for one option, a value to store or
    a failure to record. *)
Definition resolve_leaf (raw : dict) (name : string) (o : Option)
    (acc : dict * list failure) : dict * list failure :=
  match validate (opt_type o) (raw_value raw name o) with
  | inr v => ((name, v) :: acc.1, acc.2)
  | inl msg => (acc.1, ([name], msg) :: acc.2)
  end.

(** Modelled from the spec: the resolver of [kvmd.yamlconf] is not
    part of the sources at hand.  First sub-pass of a section: the
    options without [only_if], each validated on its raw value;
    a failure is recorded and the pass goes on. *)
Fixpoint resolve_plain (children : scheme) (raw : dict) : dict * list failure :=
  match children with
  | [] => ([], [])
  | (name, SOpt o) :: rest =>
      match parse_only_if (opt_only_if o) with
      | Always => resolve_leaf raw name o (resolve_plain rest raw)
      | _ => resolve_plain rest raw
      end
  | (_, SDict _) :: rest => resolve_plain rest raw
  end.

(** Modelled from the spec: step 2, the rule read against the values
    the first sub-pass resolved.  The spec leaves open what a sibling
    without a resolved value means; here it leaves the rule unmet. *)
Definition predicate_met (resolved : dict) (p : predicate) : bool :=
  match p with
  | Always => true
  | IfTrue sibling =>
      match dict_get resolved sibling with
      | Some v => truthy v
      | None => false
      end
  | IfFalse sibling =>
      match dict_get resolved sibling with
      | Some v => negb (truthy v)
      | None => false
      end
  end.

(** Modelled from the spec: the resolver of [kvmd.yamlconf] is not
    part of the sources at hand.  Second sub-pass: the options with
    [only_if].  An option whose rule is unmet resolves to the
    disabled marker and its validator is not invoked. *)
Fixpoint resolve_conditional (children : scheme) (raw : dict) (resolved : dict)
  : dict * list failure :=
  match children with
  | [] => ([], [])
  | (name, SOpt o) :: rest =>
      let acc := resolve_conditional rest raw resolved in
      match parse_only_if (opt_only_if o) with
      | Always => acc
      | p =>
          if predicate_met resolved p then resolve_leaf raw name o acc
          else ((name, VNone) :: acc.1, acc.2)
      end
  | (_, SDict _) :: rest => resolve_conditional rest raw resolved
  end.

(** Modelled from the spec: a failure of a child section, seen from its
    parent. *)
Definition under (name : string) (f : failure) : failure := (name :: f.1, f.2).

(** Modelled from the spec: the resolver of [kvmd.yamlconf] is not
    part of the sources at hand.  One section schema node: both
    sub-passes over the child options, then the child sections, each
    with its sub-mapping of [raw]; the failures of a child section
    come back under its name. *)
Fixpoint resolve_node (node : scheme_node) (raw : dict) {struct node}
  : dict * list failure :=
  match node with
  | SOpt _ => ([], [])
  | SDict children =>
      let plain := resolve_plain children raw in
      let conditional := resolve_conditional children raw plain.1 in
      let sections :=
        (fix sections (children : scheme) : dict * list failure :=
           match children with
           | [] => ([], [])
           | (name, child) :: rest =>
               match child with
               | SOpt _ => sections rest
               | SDict _ =>
                   let sub := resolve_node child (sub_raw raw name) in
                   let acc := sections rest in
                   ((name, VDict sub.1) :: acc.1, (under name <$> sub.2) ++ acc.2)
               end
           end) children in
      (plain.1 ++ conditional.1 ++ sections.1, plain.2 ++ conditional.2 ++ sections.2)
  end.

(** Modelled from the spec: step 4, the loop over the child sections of
    [resolve_node], on its own. *)
Fixpoint resolve_sections (children : scheme) (raw : dict) : dict * list failure :=
  match children with
  | [] => ([], [])
  | (name, child) :: rest =>
      match child with
      | SOpt _ => resolve_sections rest raw
      | SDict _ =>
          let sub := resolve_node child (sub_raw raw name) in
          let acc := resolve_sections rest raw in
          ((name, VDict sub.1) :: acc.1, (under name <$> sub.2) ++ acc.2)
      end
  end.

(** Modelled from the spec: [make_config] of [kvmd.yamlconf] is not
    part of the sources at hand; this is the contract
    [resolve(raw, schema)] of the design document.  Step 5: if any
    leaf recorded a failure the pass fails with all of them,
    otherwise it returns the assembled section. *)
Definition resolve (raw : dict) (schema : scheme) : resolution :=
  let '(section, failures) := resolve_node (SDict schema) raw in
  match failures with
  | [] => Resolved section
  | _ :: _ => ConfigErrorWith failures
  end.

(** *** What a failing leaf is, stated on the schema and the raw
    document alone *)

(** The sibling named by a rule has resolved, and meets the rule. *)
Definition sibling_resolves (children : scheme) (raw : dict) (sibling : string)
    (v : value) : Prop :=
  ∃ so, dict_get children sibling = Some (SOpt so)
        ∧ parse_only_if (opt_only_if so) = Always
        ∧ validate (opt_type so) (raw_value raw sibling so) = inr v.

Definition rule_holds (children : scheme) (raw : dict) (p : predicate) : Prop :=
  match p with
  | Always => True
  | IfTrue sibling => ∃ v, sibling_resolves children raw sibling v ∧ truthy v = true
  | IfFalse sibling => ∃ v, sibling_resolves children raw sibling v ∧ truthy v = false
  end.

Inductive leaf_fails : scheme → dict → list string → string → Prop :=
  | leaf_fails_here children raw name o msg :
      dict_get children name = Some (SOpt o) →
      rule_holds children raw (parse_only_if (opt_only_if o)) →
      validate (opt_type o) (raw_value raw name o) = inl msg →
      leaf_fails children raw [name] msg
  | leaf_fails_below children raw name sub path msg :
      dict_get children name = Some (SDict sub) →
      leaf_fails sub (sub_raw raw name) path msg →
      leaf_fails children raw (name :: path) msg.
End resolve.

(** A validator library for the examples: ports, booleans and GPIO
    pins are checked, an option without a validator accepts its raw
    value, anything else is refused. *)
Definition demo_validate (type : option validator) (raw : value) : string + value :=
  match type, raw with
  | None, _ => inr raw
  | Some valid_bool, VBool _ => inr raw
  | Some valid_port, VInt z =>
      if decide (0 ≤ z ≤ 65535)%Z then inr raw else inl "not a port number"
  | Some valid_gpio_pin, VInt z =>
      if decide (0 ≤ z)%Z then inr raw else inl "not a GPIO pin"
  | Some _, _ => inl "invalid value"
  end.

Definition demo_schema : scheme := [
  ("server", SDict [("port", SOpt (opt_t (VInt 0) valid_port))]);
  ("atx", SDict [
     ("enabled", SOpt (opt_t (VBool true) valid_bool));
     ("power_led_pin", SOpt (with_only_if (opt_t (VInt (-1)) valid_gpio_pin) "enabled"))
   ])
].

Definition demo_raw : dict := [("server", VDict [("port", VStr "http")])].

End Resolver.

(** ** Statement vocabulary and a small instance *)

(** The scheme pass 2 is given: [base] with the [auth] section of
    [kvmd] followed by the [internal] slot and, when an external plugin
    is selected, by the [external] slot. *)
Definition auth_spliced (base : scheme) (internal : scheme) (external : option scheme)
  : scheme :=
  dict_set base "kvmd"
    (SDict (dict_set scheme_kvmd "auth"
       (SDict (scheme_kvmd_auth
               ++ [("internal", SDict internal)]
               ++ match external with
                  | Some options => [("external", SDict options)]
                  | None => []
                  end)))).

(** [scheme["kvmd"]["auth"].get(slot)], when the path is there. *)
Definition auth_slot (sch : scheme) (slot : string) : option scheme_node :=
  match dict_get sch "kvmd" with
  | Some (SDict kvmd) =>
      match dict_get kvmd "auth" with
      | Some (SDict auth) => dict_get auth slot
      | _ => None
      end
  | _ => None
  end.

(** A module environment for the examples: one well-formed plugin, and
    one module that imports but binds no [Plugin]. *)
Definition htpasswd_plugin : plugin_class :=
  mkPluginClass 11 "kvmd.plugins.auth.htpasswd"
    (Some [("file", SOpt (with_unpack_as
                           (opt_t (VStr "/etc/kvmd/htpasswd") valid_abs_path_exists) "path"))]).

Definition demo_modules : modules :=
  {[ "kvmd.plugins.auth.htpasswd" := Ok ({[ "Plugin" := htpasswd_plugin ]} : pymodule);
     "kvmd.plugins.auth.broken" := Ok (∅ : pymodule) ]}.

(** Collaborators for the examples.  The world is the plugin cache and
    the log of the resolver's calls.  Three configuration files exist;
    the resolver reads the two selectors from the raw document, falls
    back on the defaults of the scheme, and rejects a document with a
    top-level key [invalid]. *)
Record demo_world : Type := mkDemoWorld {
  demo_cache : plugin_cache;
  demo_passes : list (dict * scheme);
}.

Record demo_config : Type := mkDemoConfig {
  demo_pass : nat;
  demo_internal_type : string;
  demo_external_type : string;
}.

Definition demo_selector (raw : dict) (name default : string) : string :=
  match dict_get raw "kvmd" with
  | Some (VDict kvmd) =>
      match dict_get kvmd "auth" with
      | Some (VDict auth) =>
          match dict_get auth name with
          | Some (VStr s) => s
          | _ => default
          end
      | _ => default
      end
  | _ => default
  end.

Definition demo_auth_doc (internal_type : string) : dict :=
  [("kvmd", VDict [("auth", VDict [("internal_type", VStr internal_type)])])].

Definition demo_collaborators : Collaborators := {|
  world := demo_world;
  ConfigSection := demo_config;
  expanduser := λ path, path;
  load_yaml_file := λ path w,
    if decide (path = "/etc/kvmd/main.yaml") then (Ok [], w)
    else if decide (path = "/etc/kvmd/ldap.yaml") then (Ok (demo_auth_doc "ldap"), w)
    else if decide (path = "/etc/kvmd/invalid.yaml") then (Ok [("invalid", VInt 1)], w)
    else (Raise (OtherError "FileNotFoundError" path), w);
  build_raw_from_options := λ options w,
    match options with
    | [] => (Ok [], w)
    | option :: _ => (Raise (ConfigError ("No value for key '" +:+ option +:+ "'")), w)
    end;
  make_config := λ raw sch w,
    let w' := mkDemoWorld (demo_cache w) (demo_passes w ++ [(raw, sch)]) in
    match dict_get raw "invalid" with
    | Some _ => (Raise (ConfigError "Invalid value for key 'invalid'"), w')
    | None =>
        (Ok (mkDemoConfig (List.length (demo_passes w'))
               (demo_selector raw "internal_type" "htpasswd")
               (demo_selector raw "external_type" "")), w')
    end;
  get_auth_service_class := λ name w,
    let '(r, cache) := get_plugin_class demo_modules "auth" name (demo_cache w) in
    (r, mkDemoWorld cache (demo_passes w));
  auth_internal_type := demo_internal_type;
  auth_external_type := demo_external_type;
|}.

Definition demo_start : demo_world := mkDemoWorld [] [].

(** ** Further vocabulary for the properties of the code *)

(** A value as Python builds it: the keys of every dict, at every depth
    below dicts, are distinct. *)
Inductive dict_wf : dict → Prop :=
  | dict_wf_nil : dict_wf []
  | dict_wf_cons key v d :
      key ∉ dict_keys d → value_wf v → dict_wf d → dict_wf ((key, v) :: d)
with value_wf : value → Prop :=
  | value_wf_dict d : dict_wf d → value_wf (VDict d)
  | value_wf_leaf v : (∀ d, v ≠ VDict d) → value_wf v.

Scheme dict_wf_mut := Induction for dict_wf Sort Prop
  with value_wf_mut := Induction for value_wf Sort Prop.

(** [d[k1][k2]...[kn]], when every step but the last lands on a dict. *)
Fixpoint path_get (d : dict) (path : list string) : option value :=
  match path with
  | [] => None
  | key :: rest =>
      match dict_get d key, rest with
      | Some v, [] => Some v
      | Some (VDict sub), _ :: _ => path_get sub rest
      | _, _ => None
      end
  end.


(** The value [_merge_dicts] stores under a key of the override, given
    what the base holds there. *)
Definition merged_value (old : option value) (sv : value) : value :=
  match old, sv with
  | Some (VDict dd), VDict sd => VDict (_merge_dicts dd sd)
  | _, _ => sv
  end.

(** The override leaves [path] alone: at some depth it has no entry for
    the next key, and above that depth it only descends through dicts. *)
Fixpoint path_untouched (src : dict) (path : list string) : bool :=
  match path with
  | [] => false
  | key :: rest =>
      match dict_get src key, rest with
      | None, _ => true
      | Some (VDict sub), _ :: _ => path_untouched sub rest
      | Some _, _ => false
      end
  end.


(** The sibling an [only_if] names: the string itself, without the [!]
    that negates it; the empty string names nothing. *)
Definition only_if_target (only_if : string) : option string :=
  match only_if with
  | EmptyString => None
  | String c rest => if decide (c = "!"%char) then Some rest else Some only_if
  end.

(** The [only_if] of [o], if any, names an option among [siblings] that
    has no [only_if] of its own. *)
Definition only_if_ok (siblings : scheme) (o : Option) : bool :=
  match only_if_target (opt_only_if o) with
  | None => true
  | Some target =>
      match dict_get siblings target with
      | Some (SOpt sibling) => bool_decide (opt_only_if sibling = "")
      | _ => false
      end
  end.

(** A scheme is sound when, at every level, the names are distinct and
    every [only_if] is [only_if_ok] among its siblings. *)
Fixpoint scheme_node_ok (node : scheme_node) : bool :=
  match node with
  | SOpt _ => true
  | SDict children =>
      bool_decide (NoDup (dict_keys children))
      && forallb (λ item, match item.2 with
                          | SOpt o => only_if_ok children o
                          | SDict _ => scheme_node_ok item.2
                          end) children
  end.


(** A full cache of [lru_maxsize] distinct pairs, for the examples:
    pair [n] is [(chr(n), "p")]. *)
Definition demo_full_cache : plugin_cache :=
  (λ n, ((String (ascii_of_nat n) EmptyString, "p"), BasePlugin)) <$> seq 0 lru_maxsize.


(** The exception classes the [except] clause of [_init_config] names. *)
Definition is_config_error (err : exn) : bool :=
  match err with
  | ConfigError _ | UnknownPluginError _ => true
  | _ => false
  end.


(** The collaborators of the examples, with a loader that finds [doc]
    under every path. *)
Definition demo_collaborators_loading (doc : dict) : Collaborators := {|
  world := demo_world;
  ConfigSection := demo_config;
  expanduser := @expanduser demo_collaborators;
  load_yaml_file := λ _ w, (Ok doc, w);
  build_raw_from_options := @build_raw_from_options demo_collaborators;
  make_config := @make_config demo_collaborators;
  get_auth_service_class := @get_auth_service_class demo_collaborators;
  auth_internal_type := demo_internal_type;
  auth_external_type := demo_external_type;
|}.


(** ** [kvmd.apps]: [init] and [_dump_config]

    The entry point of every application.  What it calls outside this
    development is again an interface: [argparse] (building the parser
    with its three options and parsing), [sys.argv], the dumper of
    [kvmd.yamlconf], [sys.stdout.isatty()], [pygments.highlight] with
    the YAML lexer and the terminal formatter, [print], and the two
    calls into [logging].  [cli_options] is the namespace
    [parse_known_args] returns. *)

Record cli_options : Type := mkCliOptions {
  cli_config_path : string;
  cli_set_options : list string;
  cli_dump_config : bool;
}.

Class Frontend `{Collaborators} : Type := {
  ArgumentParser : Type;
  make_args_parser : string → option string → bool → ArgumentParser;
  sys_argv : world → list string;
  parse_known_args :
    ArgumentParser → list string → world → result (cli_options * list string) * world;
  make_config_dump : ConfigSection → string;
  stdout_isatty : world → bool;
  highlight : string → string;
  print : string → world → world;
  capture_warnings : world → world;
  dict_config : ConfigSection → world → result unit * world;
}.

(** [x or d] for an optional list and for an optional string: [None]
    and the empty value are both falsy. *)
Definition or_list {A : Type} (x : option (list A)) (d : list A) : list A :=
  match x with
  | Some (a :: l) => a :: l
  | _ => d
  end.

Definition or_str (x : option string) (d : string) : string :=
  match x with
  | Some s => if str_truthy s then s else d
  | None => d
  end.

Definition _dump_config `{Frontend} (config : ConfigSection) : M unit :=
  λ w,
    let dump := make_config_dump config in
    let dump := if stdout_isatty w then highlight dump else dump in
    (Ok (), print dump w).

(** [init].  A failing [assert len(argv) > 0] is an [AssertionError],
    one of the other exception classes; [raise SystemExit()] carries no
    message, its [str] is empty. *)
Definition init `{Frontend}
    (prog description : option string) (add_help : bool)
    (sections argv : option (list string))
  : M (ArgumentParser * list string * ConfigSection) :=
  λ w0,
    let argv := or_list argv (sys_argv w0) in
    match argv with
    | [] => (Raise (OtherError "AssertionError" ""), w0)
    | argv0 :: _ =>
        let args_parser := make_args_parser (or_str prog argv0) description add_help in
        (parsed ← parse_known_args args_parser argv;
         let options := parsed.1 in
         let remaining := parsed.2 in
         config ← _init_config (cli_config_path options) (or_list sections [])
                    (cli_set_options options);
         if cli_dump_config options then
           _ ← _dump_config config;
           raise (SystemExit "")
         else
           _ ← (λ w, (Ok (), capture_warnings w));
           _ ← dict_config config;
           mret (args_parser, remaining, config)) w0
    end.

(** A front end for the examples: the command line is parsed for [-m]
    only, the dump is the internal auth type, nothing is a terminal. *)
Definition demo_frontend : @Frontend demo_collaborators := {|
  ArgumentParser := string;
  make_args_parser := λ prog _ _, prog;
  sys_argv := λ _, ["kvmd"];
  parse_known_args := λ _ argv w,
    (Ok (mkCliOptions "/etc/kvmd/main.yaml" [] (bool_decide ("-m" ∈ argv)),
         filter (λ arg, arg ≠ "-m") argv), w);
  make_config_dump := λ config : @ConfigSection demo_collaborators,
    demo_internal_type config;
  stdout_isatty := λ _, false;
  highlight := λ dump, dump;
  print := λ _ w, w;
  capture_warnings := λ w, w;
  dict_config := λ _ w, (Ok (), w);
|}.


(** A crowd of plugins for the examples: [lru_maxsize] pairs
    [("hid", "p000")], [("hid", "p001")], ... each with a module of its
    own that binds [Plugin], beside the [htpasswd] module. *)
Definition demo_crowd_name (n : nat) : string :=
  String "p"
    (String (ascii_of_nat (48 + n / 100))
       (String (ascii_of_nat (48 + (n / 10) mod 10))
          (String (ascii_of_nat (48 + n mod 10)) EmptyString))).

Definition demo_crowd_pairs : list (string * string) :=
  (λ n, ("hid", demo_crowd_name n)) <$> seq 0 lru_maxsize.

Definition demo_crowd_class (n : nat) : plugin_class :=
  mkPluginClass (100 + n) (plugin_module_name "hid" (demo_crowd_name n)) None.

Definition demo_crowd_modules : modules :=
  <[ "kvmd.plugins.auth.htpasswd" := Ok ({[ "Plugin" := htpasswd_plugin ]} : pymodule) ]>
    (list_to_map
       ((λ n, (plugin_module_name "hid" (demo_crowd_name n),
               Ok ({[ "Plugin" := demo_crowd_class n ]} : pymodule))) <$> seq 0 lru_maxsize)).

(** * Properties *)

(** ** Override merging *)

Lemma _merge_dicts_nil dest : _merge_dicts dest [] = dest.
Proof. reflexivity. Qed.

Lemma _merge_dicts_cons dest key sv rest :
  _merge_dicts dest ((key, sv) :: rest) =
  _merge_dicts
    match dict_get dest key, sv with
    | Some (VDict dd), VDict sd => dict_set dest key (VDict (_merge_dicts dd sd))
    | _, _ => dict_set dest key sv
    end rest.
Proof.
  unfold _merge_dicts. cbn [merge_into].
  destruct (dict_get dest key) as [[]|], sv; reflexivity.
Qed.

(** *** Reading back what was written *)

Lemma dict_get_set_eq {A} (d : list (string * A)) key v :
  dict_get (dict_set d key v) key = Some v.
Proof.
  induction d as [|[k w] d IH]; cbn.
  - by rewrite decide_True.
  - destruct (decide (k = key)) as [->|Hne]; cbn.
    + by rewrite decide_True.
    + by rewrite decide_False.
Qed.

Lemma dict_get_set_ne {A} (d : list (string * A)) key key' v :
  key ≠ key' → dict_get (dict_set d key v) key' = dict_get d key'.
Proof.
  intros Hne. induction d as [|[k w] d IH]; cbn.
  - by rewrite decide_False.
  - destruct (decide (k = key)) as [->|Hk]; cbn.
    + by rewrite !decide_False.
    + destruct (decide (k = key')); [done | apply IH].
Qed.

Lemma dict_get_None {A} (d : list (string * A)) key :
  key ∉ dict_keys d → dict_get d key = None.
Proof.
  induction d as [|[k w] d IH]; cbn; [done|].
  intros Hnot. apply not_elem_of_cons in Hnot as [Hne Hnot].
  rewrite decide_False by done. by apply IH.
Qed.

Lemma dict_get_Some_key {A} (d : list (string * A)) key v :
  dict_get d key = Some v → key ∈ dict_keys d.
Proof.
  induction d as [|[k w] d IH]; cbn; [done|].
  destruct (decide (k = key)) as [->|Hne]; intros H.
  - apply list_elem_of_here.
  - apply list_elem_of_further, IH, H.
Qed.

(** The value found under [key] once one item [(skey, sv)] of the
    override has been processed. *)
Lemma merge_step_get dest skey sv key :
  dict_get
    match dict_get dest skey, sv with
    | Some (VDict dd), VDict sd => dict_set dest skey (VDict (_merge_dicts dd sd))
    | _, _ => dict_set dest skey sv
    end key
  = if decide (skey = key) then
      match dict_get dest skey, sv with
      | Some (VDict dd), VDict sd => Some (VDict (_merge_dicts dd sd))
      | _, _ => Some sv
      end
    else dict_get dest key.
Proof.
  destruct (decide (skey = key)) as [->|Hne].
  - destruct (dict_get dest key) as [[]|], sv; apply dict_get_set_eq.
  - destruct (dict_get dest skey) as [[]|], sv; by apply dict_get_set_ne.
Qed.

Lemma merge_dicts_get dest src key :
  NoDup (dict_keys src) →
  dict_get (_merge_dicts dest src) key =
    match dict_get src key with
    | None => dict_get dest key
    | Some sv =>
        match dict_get dest key, sv with
        | Some (VDict dd), VDict sd => Some (VDict (_merge_dicts dd sd))
        | _, _ => Some sv
        end
    end.
Proof.
  revert dest. induction src as [|[skey sv] rest IH]; intros dest Hnd.
  - done.
  - apply NoDup_cons in Hnd as [Hfresh Hnd].
    rewrite _merge_dicts_cons, IH by done. cbn [dict_get].
    rewrite !merge_step_get.
    destruct (decide (skey = key)) as [->|Hne].
    + by rewrite (dict_get_None rest key).
    + done.
Qed.

(** C1. Merging an override-derived mapping [src] into a base mapping
    [dest] with [_merge_dicts]: under a key that both hold as mappings
    the merge recurses; under any other key of the override the
    override's value replaces the base's value entirely (a list replaces
    whatever was there, nothing is concatenated); a key that only the
    base holds keeps its value.  Merging [{"a": {"x": 1, "y": 2}}] with
    [{"a": {"x": 9}}] gives [{"a": {"x": 9, "y": 2}}]. *)
Theorem merge_dicts_deep_override :
  (∀ (dest src : dict) (key : string),
     NoDup (dict_keys src) →
     (∀ dd sd,
        dict_get dest key = Some (VDict dd) → dict_get src key = Some (VDict sd) →
        dict_get (_merge_dicts dest src) key = Some (VDict (_merge_dicts dd sd)))
     ∧ (∀ sv,
        dict_get src key = Some sv →
        (∀ dd sd, ¬ (dict_get dest key = Some (VDict dd) ∧ sv = VDict sd)) →
        dict_get (_merge_dicts dest src) key = Some sv)
     ∧ (∀ l,
        dict_get src key = Some (VList l) →
        dict_get (_merge_dicts dest src) key = Some (VList l))
     ∧ (dict_get src key = None →
        dict_get (_merge_dicts dest src) key = dict_get dest key))
  ∧ _merge_dicts
      [("a", VDict [("x", VInt 1); ("y", VInt 2)])]
      [("a", VDict [("x", VInt 9)])]
    = [("a", VDict [("x", VInt 9); ("y", VInt 2)])].
Proof.
  split; [|reflexivity].
  intros dest src key Hnd. pose proof (merge_dicts_get dest src key Hnd) as Hget.
  repeat split.
  - intros dd sd Hd Hs. by rewrite Hget, Hs, Hd.
  - intros sv Hs Hnot. rewrite Hget, Hs.
    destruct (dict_get dest key) as [[]|] eqn:Hd, sv; try done.
    exfalso. by eapply Hnot.
  - intros l Hs. rewrite Hget, Hs. by destruct (dict_get dest key) as [[]|].
  - intros Hs. by rewrite Hget, Hs.
Qed.

Lemma merge_dicts_deep_override_witness :
  NoDup (dict_keys [("a", VDict [("x", VInt 9)]); ("l", VList [VInt 3])])
  ∧ dict_get
      (_merge_dicts
         [("a", VDict [("x", VInt 1); ("y", VInt 2)]); ("l", VList [VInt 1; VInt 2]);
          ("b", VStr "kept")]
         [("a", VDict [("x", VInt 9)]); ("l", VList [VInt 3])]) "l"
    = Some (VList [VInt 3]).
Proof.
  assert (Hnd : NoDup (dict_keys [("a", VDict [("x", VInt 9)]); ("l", VList [VInt 3])])).
  { apply (bool_decide_unpack _). vm_compute. exact I. }
  split; [exact Hnd|].
  apply (proj1 merge_dicts_deep_override _ _ "l" Hnd). reflexivity.
Defined.

(** ** Scheme selection *)

Lemma dict_get_filter_key {A} (keys : list string) (d : list (string * A)) key :
  dict_get (filter (λ item, item.1 ∈ keys) d) key
  = if decide (key ∈ keys) then dict_get d key else None.
Proof.
  induction d as [|[k v] d IH].
  - cbn. by destruct (decide (key ∈ keys)).
  - rewrite filter_cons. cbn [fst dict_get].
    destruct (decide (k ∈ keys)) as [Hk|Hk]; cbn [dict_get];
      destruct (decide (k = key)) as [->|Hne]; rewrite ?IH;
      destruct (decide (key ∈ keys)); done.
Qed.

Lemma dict_keys_filter_key {A} (keys : list string) (d : list (string * A)) :
  dict_keys (filter (λ item, item.1 ∈ keys) d) = filter (λ key, key ∈ keys) (dict_keys d).
Proof.
  unfold dict_keys. induction d as [|[k v] d IH]; [done|].
  rewrite fmap_cons, !filter_cons. cbn [fst].
  destruct (decide (k ∈ keys)); rewrite ?fmap_cons, IH; done.
Qed.

(** C10. [_get_config_scheme] with a non-empty list of section names
    returns exactly the top-level entries of the full scheme whose key
    is in the list; with the empty list it returns the full scheme,
    whose top-level keys are "logging", "kvmd" and "ipmi".  A selected
    section comes with the sub-scheme it has in the full scheme. *)
Theorem get_config_scheme_selection :
  (∀ (section : string) (others : list string) (key : string),
     dict_get (_get_config_scheme (section :: others)) key
     = if decide (key ∈ section :: others)
       then dict_get (_get_config_scheme []) key else None)
  ∧ (∀ (section : string) (others : list string),
       dict_keys (_get_config_scheme (section :: others))
       = filter (λ key, key ∈ section :: others) ["logging"; "kvmd"; "ipmi"])
  ∧ (∀ (sections : list string) (key : string) (sub : scheme_node),
       dict_get (_get_config_scheme sections) key = Some sub →
       dict_get (_get_config_scheme []) key = Some sub)
  ∧ _get_config_scheme []
    = [("logging", SOpt (opt (VDict [])));
       ("kvmd", SDict scheme_kvmd);
       ("ipmi", SDict scheme_ipmi)].
Proof.
  assert (Hget : ∀ section others key,
    dict_get (_get_config_scheme (section :: others)) key
    = if decide (key ∈ section :: others)
      then dict_get (_get_config_scheme []) key else None).
  { intros section others key. unfold _get_config_scheme.
    apply dict_get_filter_key. }
  split; [exact Hget|]. split; [|split; [|reflexivity]].
  - intros section others. unfold _get_config_scheme.
    apply (dict_keys_filter_key (section :: others)).
  - intros [|section others] key sub; [done|].
    rewrite Hget. by destruct (decide (key ∈ section :: others)).
Qed.

Lemma get_config_scheme_selection_witness :
  dict_get (_get_config_scheme ["logging"; "ipmi"]) "ipmi" = Some (SDict scheme_ipmi)
  ∧ dict_get (_get_config_scheme []) "ipmi" = Some (SDict scheme_ipmi).
Proof.
  assert (H : dict_get (_get_config_scheme ["logging"; "ipmi"]) "ipmi"
              = Some (SDict scheme_ipmi)) by reflexivity.
  split; [exact H|].
  exact (proj1 (proj2 (proj2 get_config_scheme_selection)) _ _ _ H).
Defined.

(** ** The plugin base class *)

Lemma str_rindex_dot_None (s : string) :
  ¬ In "."%char (list_ascii_of_string s) → str_rindex_dot s = None.
Proof.
  induction s as [|c s IH]; cbn; [done|].
  intros Hnot. rewrite IH by tauto.
  destruct (decide (c = "."%char)) as [->|]; [tauto | done].
Qed.

Lemma str_rindex_dot_last (prefix last : string) :
  ¬ In "."%char (list_ascii_of_string last) →
  str_rindex_dot (prefix +:+ "." +:+ last) = Some (String.length prefix).
Proof.
  intros Hnot. induction prefix as [|c prefix IH].
  - change (str_rindex_dot (String "." last) = Some 0). cbn.
    by rewrite (str_rindex_dot_None last Hnot).
  - change (str_rindex_dot (String c (prefix +:+ "." +:+ last))
            = Some (S (String.length prefix))).
    cbn [str_rindex_dot]. by rewrite IH.
Qed.

Lemma str_from_after_dot (prefix last : string) :
  str_from (String.length prefix + 1) (prefix +:+ "." +:+ last) = last.
Proof.
  induction prefix as [|c prefix IH]; [reflexivity|].
  change (str_from (S (String.length prefix + 1)) (String c (prefix +:+ "." +:+ last))
          = last).
  apply IH.
Qed.

(** C7. [get_plugin_name] returns the last path segment of the class's
    module name: for a module name [prefix.last], where [last] has no
    dot, the result is [last].  In particular a class that lives in the
    module the registry imports for [(sub, name)] is named [name]. *)
Theorem get_plugin_name_last_segment :
  (∀ (cls : plugin_class) (prefix last : string),
     cls_module cls = prefix +:+ "." +:+ last →
     ¬ In "."%char (list_ascii_of_string last) →
     get_plugin_name cls = Ok last)
  ∧ (∀ (cls : plugin_class) (sub name : string),
       cls_module cls = plugin_module_name sub name →
       ¬ In "."%char (list_ascii_of_string name) →
       get_plugin_name cls = Ok name).
Proof.
  assert (Hlast : ∀ cls prefix last,
    cls_module cls = prefix +:+ "." +:+ last →
    ¬ In "."%char (list_ascii_of_string last) →
    get_plugin_name cls = Ok last).
  { intros cls prefix last Hmod Hnot. unfold get_plugin_name.
    rewrite Hmod, str_rindex_dot_last by done.
    by rewrite str_from_after_dot. }
  split; [exact Hlast|].
  intros cls sub name Hmod Hnot.
  apply (Hlast cls ("kvmd.plugins." +:+ sub) name); [|done].
  rewrite Hmod. unfold plugin_module_name.
  generalize ("." +:+ name). intros tail.
  change ("kvmd.plugins." +:+ sub +:+ tail = ("kvmd.plugins." +:+ sub) +:+ tail).
  generalize "kvmd.plugins.". intros head.
  induction head as [|c head IH]; [reflexivity|].
  change (String c (head +:+ sub +:+ tail) = String c ((head +:+ sub) +:+ tail)).
  by rewrite IH.
Qed.

Lemma get_plugin_name_last_segment_witness :
  get_plugin_name (mkPluginClass 7 "kvmd.plugins.auth.htpasswd" None) = Ok "htpasswd".
Proof.
  apply (proj1 get_plugin_name_last_segment _ "kvmd.plugins.auth" "htpasswd").
  - reflexivity.
  - cbn. intros H. repeat destruct H as [H|H]; try discriminate H. exact H.
Defined.

(** C8. The base class's [get_plugin_options] returns the empty
    fragment, and so does every class that does not define its own. *)
Theorem base_plugin_options_empty :
  get_plugin_options BasePlugin = []
  ∧ ∀ cls : plugin_class, cls_plugin_options cls = None → get_plugin_options cls = [].
Proof.
  split; [reflexivity|].
  intros cls Hnone. unfold get_plugin_options. by rewrite Hnone.
Qed.

Lemma base_plugin_options_empty_witness :
  get_plugin_options (mkPluginClass 3 "kvmd.plugins.auth.noop" None) = [].
Proof. apply (proj2 base_plugin_options_empty). reflexivity. Defined.

(** ** The cached plugin lookup *)

Section lru_facts.
Context {K V : Type} `{EqDecision K}.
Implicit Types (cache : list (K * V)) (f : K → result V).

Lemma cache_get_elem_of cache key v :
  cache_get cache key = Some v → (key, v) ∈ cache.
Proof.
  induction cache as [|[k w] cache IH]; cbn; [done|].
  destruct (decide (k = key)) as [->|Hne]; intros Hget.
  - injection Hget as ->. apply list_elem_of_here.
  - apply list_elem_of_further, IH, Hget.
Qed.

Lemma cache_agrees_get f cache key v :
  cache_agrees f cache → cache_get cache key = Some v → f key = Ok v.
Proof.
  intros Hagree Hget. apply cache_get_elem_of in Hget.
  unfold cache_agrees in Hagree. rewrite Forall_forall in Hagree.
  apply (Hagree _ Hget).
Qed.

Lemma lru_call_miss_raise f key cache err :
  cache_get cache key = None → f key = Raise err →
  lru_call f key cache = (Raise err, cache).
Proof. intros Hmiss Hf. unfold lru_call. by rewrite Hmiss, Hf. Qed.

(** A returned value sits at the front of the cache afterwards. *)
Lemma lru_call_stores f key cache v cache' :
  lru_call f key cache = (Ok v, cache') → cache_get cache' key = Some v.
Proof.
  unfold lru_call. destruct (cache_get cache key) as [w|].
  - intros [= <- <-]. cbn. by rewrite decide_True.
  - destruct (f key) as [w|err]; [|done].
    intros [= <- <-]. cbn. by rewrite decide_True.
Qed.

(** A hit does not call the function. *)
Lemma lru_call_hit f key cache v :
  cache_get cache key = Some v → (lru_call f key cache).1 = Ok v.
Proof. intros Hhit. unfold lru_call. by rewrite Hhit. Qed.

(** Against a cache that agrees with [f], a call returns what [f]
    does, and the cache agrees with [f] afterwards. *)
Lemma lru_call_agrees f key cache :
  cache_agrees f cache →
  (lru_call f key cache).1 = f key ∧ cache_agrees f (lru_call f key cache).2.
Proof.
  intros Hagree. unfold lru_call.
  destruct (cache_get cache key) as [v|] eqn:Hget.
  - pose proof (cache_agrees_get f cache key v Hagree Hget) as Hf.
    split; [done|]. cbn. apply Forall_cons. split; [done|].
    unfold cache_remove. apply Forall_forall. intros entry Hin.
    apply list_elem_of_filter in Hin as [_ Hin].
    unfold cache_agrees in Hagree. rewrite Forall_forall in Hagree. by apply Hagree.
  - destruct (f key) as [v|err] eqn:Hf; (split; [done|]); cbn; [|done].
    change (cache_agrees f (take lru_maxsize ((key, v) :: cache))).
    apply Forall_take, Forall_cons. by split.
Qed.
End lru_facts.

Lemma run_lookups_agrees mods calls cache :
  cache_agrees (get_plugin_class_uncached mods) cache →
  (run_lookups mods calls cache).1 = get_plugin_class_uncached mods <$> calls.
Proof.
  revert cache. induction calls as [|[sub name] calls IH]; intros cache Hagree; [done|].
  cbn [run_lookups]. unfold get_plugin_class.
  destruct (lru_call_agrees (get_plugin_class_uncached mods) (sub, name) cache Hagree)
    as [Hres Hagree'].
  destruct (lru_call _ _ cache) as [r cache']. cbn in Hres, Hagree'.
  specialize (IH cache' Hagree').
  destruct (run_lookups mods calls cache') as [rs cache'']. cbn in IH |- *.
  by rewrite Hres, IH.
Qed.

Lemma uncached_not_found mods sub name :
  mods !! plugin_module_name sub name = None →
  get_plugin_class_uncached mods (sub, name)
  = Raise (UnknownPluginError ("Unknown plugin '" +:+ sub +:+ "/" +:+ name +:+ "'")).
Proof. intros Hnone. unfold get_plugin_class_uncached, import_module. by rewrite Hnone. Qed.

(** C2, as stated, fails: a module that is found but binds no [Plugin]
    makes the lookup raise the [AttributeError] of [getattr], not
    [UnknownPluginError]. *)
Lemma get_plugin_class_malformed_raises_attribute_error :
  demo_modules !! plugin_module_name "auth" "broken" = Some (Ok (∅ : pymodule))
  ∧ (∅ : pymodule) !! "Plugin" = None
  ∧ get_plugin_class demo_modules "auth" "broken" []
    = (Raise (AttributeError
                "module 'kvmd.plugins.auth.broken' has no attribute 'Plugin'"), [])
  ∧ ¬ ∃ msg, (get_plugin_class demo_modules "auth" "broken" []).1
             = Raise (UnknownPluginError msg).
Proof.
  assert (Hrun : get_plugin_class demo_modules "auth" "broken" []
    = (Raise (AttributeError
                "module 'kvmd.plugins.auth.broken' has no attribute 'Plugin'"), []))
    by (vm_compute; reflexivity).
  split; [vm_compute; reflexivity|]. split; [reflexivity|]. split; [exact Hrun|].
  rewrite Hrun. intros [msg Hmsg]. discriminate Hmsg.
Qed.

(** C2, amended. A lookup that is not served from the cache raises
    [UnknownPluginError], naming the pair, when the plugin module cannot
    be found (also when importing it fails with [ModuleNotFoundError]);
    when the module is found but binds no [Plugin], the [AttributeError]
    of the attribute lookup propagates as it is.  Neither outcome is
    cached. *)
Theorem get_plugin_class_failures :
  ∀ (mods : modules) (sub name : string) (cache : plugin_cache),
    cache_get cache (sub, name) = None →
    (mods !! plugin_module_name sub name = None →
     get_plugin_class mods sub name cache
     = (Raise (UnknownPluginError ("Unknown plugin '" +:+ sub +:+ "/" +:+ name +:+ "'")),
        cache))
    ∧ (∀ msg,
       mods !! plugin_module_name sub name = Some (Raise (ModuleNotFoundError msg)) →
       get_plugin_class mods sub name cache
       = (Raise (UnknownPluginError ("Unknown plugin '" +:+ sub +:+ "/" +:+ name +:+ "'")),
          cache))
    ∧ (∀ module : pymodule,
       mods !! plugin_module_name sub name = Some (Ok module) →
       module !! "Plugin" = None →
       get_plugin_class mods sub name cache
       = (Raise (AttributeError
                   ("module '" +:+ plugin_module_name sub name
                    +:+ "' has no attribute '" +:+ "Plugin" +:+ "'")),
          cache)).
Proof.
  intros mods sub name cache Hmiss. unfold get_plugin_class. repeat split.
  - intros Hnone. apply lru_call_miss_raise; [done|]. by apply uncached_not_found.
  - intros msg Hraise. apply lru_call_miss_raise; [done|].
    unfold get_plugin_class_uncached, import_module. by rewrite Hraise.
  - intros module Hmod Hattr. apply lru_call_miss_raise; [done|].
    unfold get_plugin_class_uncached, import_module, getattr. by rewrite Hmod, Hattr.
Qed.

Lemma get_plugin_class_failures_witness :
  get_plugin_class demo_modules "auth" "ldap" []
  = (Raise (UnknownPluginError "Unknown plugin 'auth/ldap'"), []).
Proof.
  apply (proj1 (get_plugin_class_failures demo_modules "auth" "ldap" [] eq_refl)).
  vm_compute. reflexivity.
Defined.

(** *** An entry stays cached while fewer than [lru_maxsize] distinct
    keys are looked up *)

Section lru_retention.
Context {K V : Type} `{EqDecision K}.
Implicit Types (cache pre post : list (K * V)) (f : K → result V) (seen : list K).

Lemma cache_get_behind pre post key v :
  key ∉ pre.*1 → cache_get (pre ++ (key, v) :: post) key = Some v.
Proof.
  induction pre as [|[k w] pre IH]; cbn.
  - by rewrite decide_True.
  - intros Hnot. apply not_elem_of_cons in Hnot as [Hne Hnot].
    rewrite decide_False by done. by apply IH.
Qed.

Lemma cache_get_None_keys cache key :
  cache_get cache key = None → key ∉ cache.*1.
Proof.
  induction cache as [|[k w] cache IH]; cbn; [intros _; apply not_elem_of_nil|].
  destruct (decide (k = key)) as [->|Hne]; [done|].
  intros Hnone. apply not_elem_of_cons. split; [done | by apply IH].
Qed.

Lemma cache_remove_keys cache key :
  (cache_remove cache key).*1 = filter (λ k, k ≠ key) cache.*1.
Proof.
  unfold cache_remove. induction cache as [|[k w] cache IH]; [done|].
  rewrite fmap_cons, !filter_cons. cbn [fst].
  destruct (decide (k ≠ key)); rewrite ?fmap_cons, IH; done.
Qed.

Lemma distinct_length (l seen : list K) :
  NoDup l → l ⊆ seen → length l ≤ length (remove_dups seen).
Proof.
  intros Hnd Hsub. apply submseteq_length, NoDup_submseteq; [done|].
  intros x Hx. apply elem_of_remove_dups, Hsub, Hx.
Qed.

Lemma remove_dups_length_mono (l l' : list K) :
  l ⊆ l' → length (remove_dups l) ≤ length (remove_dups l').
Proof.
  intros Hsub. apply distinct_length; [apply NoDup_remove_dups|].
  intros x Hx. apply Hsub, elem_of_remove_dups, Hx.
Qed.

Lemma cached_behind_get key v seen cache :
  cached_behind key v seen cache → cache_get cache key = Some v.
Proof. intros (pre & post & -> & Hfresh & _). by apply cache_get_behind. Qed.

Lemma lru_call_stores_front f key cache v cache' seen :
  lru_call f key cache = (Ok v, cache') → cached_behind key v seen cache'.
Proof.
  unfold lru_call. destruct (cache_get cache key) as [w|].
  - intros [= <- <-]. exists [], (cache_remove cache key).
    repeat split; [apply not_elem_of_nil | apply NoDup_nil_2 | apply list_subseteq_nil].
  - destruct (f key) as [w|err]; [|done].
    intros [= <- <-]. exists [], (take (pred lru_maxsize) cache).
    repeat split; [apply not_elem_of_nil | apply NoDup_nil_2 | apply list_subseteq_nil].
Qed.

(** One further call keeps the entry, with the called key now seen. *)
Lemma lru_call_keeps f key v seen cache key' :
  cached_behind key v seen cache →
  length (remove_dups (key' :: seen)) < lru_maxsize →
  cached_behind key v (key' :: seen) (lru_call f key' cache).2.
Proof.
  intros Hbehind Hfew.
  pose proof (cached_behind_get _ _ _ _ Hbehind) as Hget.
  destruct Hbehind as (pre & post & -> & Hfresh & Hnd & Hsub).
  unfold lru_call. destruct (decide (key' = key)) as [->|Hne].
  { rewrite Hget. cbn [snd]. exists [], (cache_remove (pre ++ (key, v) :: post) key).
    repeat split; [apply not_elem_of_nil | apply NoDup_nil_2 | apply list_subseteq_nil]. }
  destruct (cache_get (pre ++ (key, v) :: post) key') as [v'|] eqn:Hget'.
  - cbn [snd]. unfold cache_remove. rewrite filter_app, filter_cons.
    cbn [fst]. rewrite decide_True by done.
    exists ((key', v') :: filter (λ entry, entry.1 ≠ key') pre),
           (filter (λ entry, entry.1 ≠ key') post).
    split; [done|].
    change (filter (λ entry : K * V, entry.1 ≠ key') pre) with (cache_remove pre key').
    rewrite fmap_cons, cache_remove_keys. cbn [fst]. repeat split.
    + apply not_elem_of_cons. split; [done|].
      intros [_ Hin]%list_elem_of_filter. done.
    + apply NoDup_cons. split; [|by apply NoDup_filter].
      intros [Hsame _]%list_elem_of_filter. done.
    + intros x [->|[_ Hx]%list_elem_of_filter]%elem_of_cons.
      * apply list_elem_of_here.
      * apply list_elem_of_further, Hsub, Hx.
  - apply cache_get_None_keys in Hget'.
    rewrite fmap_app, fmap_cons in Hget'. cbn [fst] in Hget'.
    apply not_elem_of_app in Hget' as [Hpre _].
    destruct (f key') as [v'|err]; cbn [snd].
    + assert (Hnd' : NoDup (key' :: pre.*1)) by (by apply NoDup_cons).
      assert (Hsub' : key' :: pre.*1 ⊆ key' :: seen).
      { intros x [->|Hx]%elem_of_cons;
          [apply list_elem_of_here | apply list_elem_of_further, Hsub, Hx]. }
      pose proof (distinct_length _ _ Hnd' Hsub') as Hlen.
      cbn [length] in Hlen. rewrite length_fmap in Hlen.
      exists ((key', v') :: pre), (take (lru_maxsize - S (S (length pre))) post).
      split; [|rewrite fmap_cons; repeat split; [|done..]].
      * change ((key', v') :: pre ++ (key, v) :: post)
          with (((key', v') :: pre) ++ (key, v) :: post).
        rewrite take_app, take_ge by (cbn [length]; lia). f_equal.
        cbn [length].
        replace (lru_maxsize - S (length pre))
          with (S (lru_maxsize - S (S (length pre)))) by lia.
        reflexivity.
      * apply not_elem_of_cons. by split.
    + exists pre, post. repeat split; [done..|].
      intros x Hx. apply list_elem_of_further, Hsub, Hx.
Qed.
End lru_retention.

Lemma run_lookups_keeps mods (others : list (string * string)) key cls seen
    (cache : plugin_cache) :
  cached_behind key cls seen cache →
  length (remove_dups (others ++ seen)) < lru_maxsize →
  ∃ seen', cached_behind key cls seen' (run_lookups mods others cache).2.
Proof.
  revert seen cache. induction others as [|[sub name] others IH]; intros seen cache Hbehind Hfew.
  - by exists seen.
  - cbn [run_lookups]. unfold get_plugin_class.
    pose proof (lru_call_keeps (get_plugin_class_uncached mods) key cls seen cache
                  (sub, name) Hbehind) as Hstep.
    destruct (lru_call _ (sub, name) cache) as [r cache']. cbn [snd] in Hstep.
    destruct (IH ((sub, name) :: seen) cache') as [seen' Hkept].
    + apply Hstep. eapply Nat.le_lt_trans; [|exact Hfew].
      apply remove_dups_length_mono. intros x Hx. cbn.
      apply elem_of_cons in Hx as [->|Hx]; [apply list_elem_of_here|].
      apply list_elem_of_further, elem_of_app. by right.
    + eapply Nat.le_lt_trans; [|exact Hfew].
      apply remove_dups_length_mono. intros x Hx. cbn.
      apply elem_of_app in Hx as [Hx|Hx]; [|apply elem_of_cons in Hx as [->|Hx]].
      * apply list_elem_of_further, elem_of_app. by left.
      * apply list_elem_of_here.
      * apply list_elem_of_further, elem_of_app. by right.
    + exists seen'. by destruct (run_lookups mods others cache').
Qed.

(** C3, as stated, fails: the memoization does not last for the
    lifetime of the process.  A pair resolves and is cached; the next
    call is served from the cache even with no module left to import;
    but once [lru_maxsize] other pairs have resolved the pair is no
    longer in the cache, and the same call goes back to the import
    system - here to find nothing. *)
Lemma get_plugin_class_forgets_after_maxsize :
  get_plugin_class demo_crowd_modules "auth" "htpasswd" []
  = (Ok htpasswd_plugin, [(("auth", "htpasswd"), htpasswd_plugin)])
  ∧ (get_plugin_class ∅ "auth" "htpasswd" [(("auth", "htpasswd"), htpasswd_plugin)]).1
    = Ok htpasswd_plugin
  ∧ forallb (λ r, match r with Ok _ => true | Raise _ => false end)
      (run_lookups demo_crowd_modules demo_crowd_pairs
         [(("auth", "htpasswd"), htpasswd_plugin)]).1 = true
  ∧ cache_get
      (run_lookups demo_crowd_modules demo_crowd_pairs
         [(("auth", "htpasswd"), htpasswd_plugin)]).2
      ("auth", "htpasswd") = None
  ∧ (get_plugin_class ∅ "auth" "htpasswd"
       (run_lookups demo_crowd_modules demo_crowd_pairs
          [(("auth", "htpasswd"), htpasswd_plugin)]).2).1
    = Raise (UnknownPluginError "Unknown plugin 'auth/htpasswd'").
Proof. repeat split; vm_compute; reflexivity. Qed.

(** C3, amended. A pair that resolved is served from the cache on the
    next call with the same pair: the same class object comes back,
    whatever the import system would find by then; it is still served
    from the cache after any run of lookups of fewer than [lru_maxsize]
    distinct pairs.  Over a whole run of lookups in one module
    environment, starting from the empty cache, any two calls with the
    same pair have the same outcome.  Resolving a pair whose module is
    not there raises [UnknownPluginError] with the message
    [Unknown plugin 'sub/name'], and stores nothing. *)
Theorem get_plugin_class_memoized :
  (∀ (mods mods' : modules) (sub name : string) (cache cache' : plugin_cache)
     (cls : plugin_class),
     get_plugin_class mods sub name cache = (Ok cls, cache') →
     cache_get cache' (sub, name) = Some cls
     ∧ (get_plugin_class mods' sub name cache').1 = Ok cls)
  ∧ (∀ (mods mods' mods'' : modules) (sub name : string) (cache cache' : plugin_cache)
       (cls : plugin_class) (others : list (string * string)),
       get_plugin_class mods sub name cache = (Ok cls, cache') →
       length (remove_dups others) < lru_maxsize →
       (get_plugin_class mods'' sub name (run_lookups mods' others cache').2).1 = Ok cls)
  ∧ (∀ (mods : modules) (calls : list (string * string)) (i j : nat)
       (pair : string * string) (ri rj : result plugin_class),
       calls !! i = Some pair → calls !! j = Some pair →
       (run_lookups mods calls []).1 !! i = Some ri →
       (run_lookups mods calls []).1 !! j = Some rj →
       ri = rj)
  ∧ (∀ (mods : modules) (sub name : string) (cache : plugin_cache),
       cache_agrees (get_plugin_class_uncached mods) cache →
       mods !! plugin_module_name sub name = None →
       get_plugin_class mods sub name cache
       = (Raise (UnknownPluginError ("Unknown plugin '" +:+ sub +:+ "/" +:+ name +:+ "'")),
          cache)).
Proof.
  split; [|split; [|split]].
  - intros mods mods' sub name cache cache' cls Hcall.
    apply lru_call_stores in Hcall. split; [done|].
    by apply lru_call_hit.
  - intros mods mods' mods'' sub name cache cache' cls others Hcall Hfew.
    apply (lru_call_stores_front _ _ _ _ _ []) in Hcall.
    destruct (run_lookups_keeps mods' others (sub, name) cls [] cache' Hcall)
      as [seen Hkept]; [by rewrite app_nil_r|].
    apply lru_call_hit. by eapply cached_behind_get.
  - intros mods calls i j pair ri rj Hi Hj.
    rewrite run_lookups_agrees by apply Forall_nil_2.
    rewrite !list_lookup_fmap, Hi, Hj. cbn. congruence.
  - intros mods sub name cache Hagree Hnone.
    pose proof (uncached_not_found mods sub name Hnone) as Hraise.
    apply lru_call_miss_raise; [|done].
    destruct (cache_get cache (sub, name)) as [cls|] eqn:Hget; [|done].
    apply (cache_agrees_get _ _ _ _ Hagree) in Hget. congruence.
Qed.

Lemma get_plugin_class_memoized_witness :
  get_plugin_class demo_modules "auth" "htpasswd" []
  = (Ok htpasswd_plugin, [(("auth", "htpasswd"), htpasswd_plugin)])
  ∧ (get_plugin_class ∅ "auth" "htpasswd" [(("auth", "htpasswd"), htpasswd_plugin)]).1
    = Ok htpasswd_plugin.
Proof.
  assert (Hfirst : get_plugin_class demo_modules "auth" "htpasswd" []
                   = (Ok htpasswd_plugin, [(("auth", "htpasswd"), htpasswd_plugin)]))
    by (vm_compute; reflexivity).
  split; [exact Hfirst|].
  exact (proj2 (proj1 get_plugin_class_memoized demo_modules ∅ _ _ _ _ _ Hfirst)).
Defined.

(** ** The two-pass build *)

Lemma dict_set_set {A} (d : list (string * A)) key v v' :
  dict_set (dict_set d key v) key v' = dict_set d key v'.
Proof.
  induction d as [|[k w] d IH]; cbn.
  - by rewrite decide_True.
  - destruct (decide (k = key)) as [->|Hne]; cbn.
    + by rewrite decide_True.
    + by rewrite decide_False, IH.
Qed.

Lemma get_config_scheme_kvmd sections :
  "kvmd" ∈ sections →
  dict_get (_get_config_scheme sections) "kvmd" = Some (SDict scheme_kvmd).
Proof.
  destruct sections as [|section others]; [by intros ?%elem_of_nil|].
  intros Hin. unfold _get_config_scheme.
  rewrite dict_get_filter_key. by rewrite decide_True.
Qed.

Lemma scheme_set_auth_internal sections internal :
  "kvmd" ∈ sections →
  scheme_set_auth (_get_config_scheme sections) "internal" internal
  = Ok (auth_spliced (_get_config_scheme sections) internal None).
Proof.
  intros Hin. unfold scheme_set_auth, scheme_getitem.
  by rewrite (get_config_scheme_kvmd sections Hin).
Qed.

Lemma scheme_set_auth_external (base : scheme) internal external :
  scheme_set_auth (auth_spliced base internal None) "external" external
  = Ok (auth_spliced base internal (Some external)).
Proof.
  unfold scheme_set_auth, scheme_getitem, auth_spliced.
  rewrite dict_get_set_eq. cbv beta iota.
  rewrite dict_get_set_eq. cbv beta iota.
  rewrite !dict_set_set. reflexivity.
Qed.


Section init_config_facts.
Context `{Collaborators}.

(** Unfolding one step of a run. *)
Ltac open_run :=
  unfold _init_config, try_except, mbind, M_bind, bind, mret, M_ret, ret, lift;
  cbv beta iota zeta.

(** The run up to the end of pass 1. *)
Lemma init_config_after_load config_path sections override_options w0 raw0 w1 :
  load_yaml_file (expanduser config_path) w0 = (Ok raw0, w1) →
  _init_config config_path sections override_options w0
  = try_except
      (overrides ← build_raw_from_options override_options;
       let raw_config := _merge_dicts raw0 overrides in
       config ← make_config raw_config (_get_config_scheme sections);
       if bool_decide ("kvmd" ∈ sections) then
         internal ← get_auth_service_class (auth_internal_type config);
         sch ← lift (scheme_set_auth (_get_config_scheme sections) "internal"
                       (get_plugin_options internal));
         sch ←
           (if str_truthy (auth_external_type config) then
              external ← get_auth_service_class (auth_external_type config);
              lift (scheme_set_auth sch "external" (get_plugin_options external))
            else mret sch);
         make_config raw_config sch
       else mret config)
      exit_on_config_error w1.
Proof. intros Hload. open_run. by rewrite Hload. Qed.

Lemma str_truthy_false s : str_truthy s = false ↔ s = "".
Proof. by destruct s. Qed.

(** The run from the start to the call of pass 2, when "kvmd" is
    among the sections and everything up to there returns. *)
Lemma init_config_two_pass config_path sections override_options
    w0 raw0 w1 overrides w2 config1 w3 internal w4 :
  "kvmd" ∈ sections →
  load_yaml_file (expanduser config_path) w0 = (Ok raw0, w1) →
  build_raw_from_options override_options w1 = (Ok overrides, w2) →
  make_config (_merge_dicts raw0 overrides) (_get_config_scheme sections) w2
  = (Ok config1, w3) →
  get_auth_service_class (auth_internal_type config1) w3 = (Ok internal, w4) →
  (auth_external_type config1 = "" →
   _init_config config_path sections override_options w0
   = try_except
       (make_config (_merge_dicts raw0 overrides)
          (auth_spliced (_get_config_scheme sections) (get_plugin_options internal) None))
       exit_on_config_error w4)
  ∧ (∀ external w5,
     auth_external_type config1 ≠ "" →
     get_auth_service_class (auth_external_type config1) w4 = (Ok external, w5) →
     _init_config config_path sections override_options w0
     = try_except
         (make_config (_merge_dicts raw0 overrides)
            (auth_spliced (_get_config_scheme sections) (get_plugin_options internal)
               (Some (get_plugin_options external))))
         exit_on_config_error w5).
Proof.
  intros Hin Hload Hbuild Hpass1 Hinternal.
  rewrite (init_config_after_load _ _ _ _ _ _ Hload).
  unfold try_except, mbind, M_bind, bind, mret, M_ret, ret, lift.
  rewrite Hbuild. cbv beta iota zeta. rewrite Hpass1.
  rewrite (bool_decide_eq_true_2 _ Hin). rewrite Hinternal.
  rewrite (scheme_set_auth_internal _ _ Hin).
  split.
  - intros Hempty. rewrite Hempty. reflexivity.
  - intros external w5 Hnonempty Hexternal.
    destruct (str_truthy (auth_external_type config1)) eqn:Htruthy.
    + rewrite Hexternal, scheme_set_auth_external. reflexivity.
    + by apply str_truthy_false in Htruthy.
Qed.

(** The run when "kvmd" is not among the sections: one pass. *)
Lemma init_config_one_pass config_path sections override_options
    w0 raw0 w1 overrides w2 :
  "kvmd" ∉ sections →
  load_yaml_file (expanduser config_path) w0 = (Ok raw0, w1) →
  build_raw_from_options override_options w1 = (Ok overrides, w2) →
  _init_config config_path sections override_options w0
  = try_except
      (make_config (_merge_dicts raw0 overrides) (_get_config_scheme sections))
      exit_on_config_error w2.
Proof.
  intros Hnotin Hload Hbuild.
  rewrite (init_config_after_load _ _ _ _ _ _ Hload).
  unfold try_except, mbind, M_bind, bind, mret, M_ret, ret, lift.
  rewrite Hbuild. cbv beta iota zeta.
  rewrite (bool_decide_eq_false_2 _ Hnotin).
  by destruct (make_config _ _ w2) as [[config|err] w3].
Qed.
End init_config_facts.



(** C5, as stated, fails: with sections that do not include "kvmd" the
    resolver runs once, and what [_init_config] returns is the result of
    that only pass. *)
Lemma init_config_single_pass_without_kvmd :
  @_init_config demo_collaborators "/etc/kvmd/main.yaml" ["logging"; "ipmi"] [] demo_start
  = (Ok (mkDemoConfig 1 "htpasswd" ""),
     mkDemoWorld [] [([], _get_config_scheme ["logging"; "ipmi"])])
  ∧ List.length (demo_passes
              (@_init_config demo_collaborators "/etc/kvmd/main.yaml"
                 ["logging"; "ipmi"] [] demo_start).2) = 1.
Proof. split; vm_compute; reflexivity. Qed.

(** C5, amended. When "kvmd" is among the sections, pass 2 runs over the
    same merged raw mapping as pass 1, with the scheme extended by the
    plugin options, and what [_init_config] returns is the result of
    pass 2; of the result of pass 1 only the two selectors are used.
    When "kvmd" is not among the sections there is one pass, and its
    result is returned. *)
Theorem init_config_returns_last_pass `{Collaborators} :
  ∀ (config_path : string) (sections override_options : list string)
    (w0 w1 w2 : world) (raw0 overrides : dict),
    load_yaml_file (expanduser config_path) w0 = (Ok raw0, w1) →
    build_raw_from_options override_options w1 = (Ok overrides, w2) →
    let raw := _merge_dicts raw0 overrides in
    let base := _get_config_scheme sections in
    (∀ (config1 config2 : ConfigSection) (internal : plugin_class) (w3 w4 w5 w6 : world)
       (external : option plugin_class),
       "kvmd" ∈ sections →
       make_config raw base w2 = (Ok config1, w3) →
       get_auth_service_class (auth_internal_type config1) w3 = (Ok internal, w4) →
       match external with
       | None => auth_external_type config1 = "" ∧ w5 = w4
       | Some cls =>
           auth_external_type config1 ≠ ""
           ∧ get_auth_service_class (auth_external_type config1) w4 = (Ok cls, w5)
       end →
       make_config raw
         (auth_spliced base (get_plugin_options internal) (get_plugin_options <$> external))
         w5 = (Ok config2, w6) →
       _init_config config_path sections override_options w0 = (Ok config2, w6))
    ∧ (∀ (config1 : ConfigSection) (w3 : world),
       "kvmd" ∉ sections →
       make_config raw base w2 = (Ok config1, w3) →
       _init_config config_path sections override_options w0 = (Ok config1, w3)).
Proof.
  intros config_path sections override_options w0 w1 w2 raw0 overrides Hload Hbuild
    raw base.
  split.
  - intros config1 config2 internal w3 w4 w5 w6 external Hin Hpass1 Hinternal Hext Hpass2.
    destruct (init_config_two_pass _ _ _ _ _ _ _ _ _ _ _ _
                Hin Hload Hbuild Hpass1 Hinternal) as [Hempty Hnonempty].
    destruct external as [cls|].
    + destruct Hext as [Hne Hlookup].
      rewrite (Hnonempty cls w5 Hne Hlookup). unfold try_except.
      cbn [fmap option_fmap option_map] in Hpass2. fold raw base. by rewrite Hpass2.
    + destruct Hext as [Hempty' ->].
      rewrite (Hempty Hempty'). unfold try_except.
      cbn [fmap option_fmap option_map] in Hpass2. fold raw base. by rewrite Hpass2.
  - intros config1 w3 Hnotin Hpass1.
    rewrite (init_config_one_pass _ _ _ _ _ _ _ _ Hnotin Hload Hbuild).
    unfold try_except. fold raw base. by rewrite Hpass1.
Qed.

Lemma init_config_returns_last_pass_witness :
  @_init_config demo_collaborators "/etc/kvmd/main.yaml" ["logging"; "kvmd"] [] demo_start
  = (Ok (mkDemoConfig 2 "htpasswd" ""),
     mkDemoWorld [(("auth", "htpasswd"), htpasswd_plugin)]
       [([], _get_config_scheme ["logging"; "kvmd"]);
        ([], auth_spliced (_get_config_scheme ["logging"; "kvmd"])
               (get_plugin_options htpasswd_plugin) None)]).
Proof.
  refine (proj1 (@init_config_returns_last_pass demo_collaborators
            "/etc/kvmd/main.yaml" ["logging"; "kvmd"] [] demo_start demo_start demo_start
            [] [] _ _)
          (mkDemoConfig 1 "htpasswd" "") _ htpasswd_plugin
          (mkDemoWorld [] [([], _get_config_scheme ["logging"; "kvmd"])])
          (mkDemoWorld [(("auth", "htpasswd"), htpasswd_plugin)]
             [([], _get_config_scheme ["logging"; "kvmd"])])
          _ _ None _ _ _ _ _).
  - reflexivity.
  - reflexivity.
  - apply (bool_decide_unpack _). vm_compute. exact I.
  - reflexivity.
  - vm_compute. reflexivity.
  - split; reflexivity.
  - vm_compute. reflexivity.
Defined.

(** C6, as stated, fails: the plugin registry can fail with an
    exception the [except] clause does not name.  For a plugin module
    that binds no [Plugin] the lookup raises [AttributeError], and
    [_init_config] ends with that very exception, not with a
    configuration error. *)
Lemma init_config_registry_failure_not_surfaced :
  @get_auth_service_class (demo_collaborators_loading (demo_auth_doc "broken")) "broken"
    (mkDemoWorld [] [(demo_auth_doc "broken", _get_config_scheme ["kvmd"])])
  = (Raise (AttributeError "module 'kvmd.plugins.auth.broken' has no attribute 'Plugin'"),
     mkDemoWorld [] [(demo_auth_doc "broken", _get_config_scheme ["kvmd"])])
  ∧ @_init_config (demo_collaborators_loading (demo_auth_doc "broken"))
      "/etc/kvmd/main.yaml" ["kvmd"] [] demo_start
    = (Raise (AttributeError "module 'kvmd.plugins.auth.broken' has no attribute 'Plugin'"),
       mkDemoWorld [] [(demo_auth_doc "broken", _get_config_scheme ["kvmd"])])
  ∧ ¬ ∃ msg,
        (@_init_config (demo_collaborators_loading (demo_auth_doc "broken"))
           "/etc/kvmd/main.yaml" ["kvmd"] [] demo_start).1
        = Raise (SystemExit msg).
Proof.
  assert (Hrun :
    @_init_config (demo_collaborators_loading (demo_auth_doc "broken"))
      "/etc/kvmd/main.yaml" ["kvmd"] [] demo_start
    = (Raise (AttributeError "module 'kvmd.plugins.auth.broken' has no attribute 'Plugin'"),
       mkDemoWorld [] [(demo_auth_doc "broken", _get_config_scheme ["kvmd"])]))
    by (vm_compute; reflexivity).
  split; [vm_compute; reflexivity|]. split; [exact Hrun|].
  rewrite Hrun. intros [msg Hmsg]. discriminate Hmsg.
Qed.

(** C6, amended. Once the document is loaded, a [ConfigError] of the option
    parser or of either resolution pass, and an [UnknownPluginError] of
    the plugin registry while the scheme is being extended, all end
    [_init_config] with [SystemExit("Config error: ...")] carrying the
    message of the failure.  When [_init_config] does return a
    configuration, every step before it returned and the configuration
    is the whole result of the last resolver pass. *)
Theorem init_config_fails_fatally `{Collaborators} :
  ∀ (config_path : string) (sections override_options : list string)
    (w0 w1 : world) (raw0 : dict),
    load_yaml_file (expanduser config_path) w0 = (Ok raw0, w1) →
    let run := _init_config config_path sections override_options w0 in
    let base := _get_config_scheme sections in
    let fatal (msg : string) (w : world) :=
      run = (Raise (SystemExit ("Config error: " +:+ msg)), w) in
    (∀ msg w2,
       build_raw_from_options override_options w1 = (Raise (ConfigError msg), w2) →
       fatal msg w2)
    ∧ (∀ overrides w2,
       build_raw_from_options override_options w1 = (Ok overrides, w2) →
       let raw := _merge_dicts raw0 overrides in
       (∀ msg w3, make_config raw base w2 = (Raise (ConfigError msg), w3) → fatal msg w3)
       ∧ (∀ config1 w3,
          "kvmd" ∈ sections →
          make_config raw base w2 = (Ok config1, w3) →
          (∀ msg w4,
             get_auth_service_class (auth_internal_type config1) w3
             = (Raise (UnknownPluginError msg), w4) →
             fatal msg w4)
          ∧ (∀ internal w4,
             get_auth_service_class (auth_internal_type config1) w3 = (Ok internal, w4) →
             (∀ msg w5,
                auth_external_type config1 ≠ "" →
                get_auth_service_class (auth_external_type config1) w4
                = (Raise (UnknownPluginError msg), w5) →
                fatal msg w5)
             ∧ (∀ external w5 msg w6,
                match external with
                | None => auth_external_type config1 = "" ∧ w5 = w4
                | Some cls =>
                    auth_external_type config1 ≠ ""
                    ∧ get_auth_service_class (auth_external_type config1) w4 = (Ok cls, w5)
                end →
                make_config raw
                  (auth_spliced base (get_plugin_options internal)
                     (get_plugin_options <$> external)) w5
                = (Raise (ConfigError msg), w6) →
                fatal msg w6))))
    ∧ (∀ config w',
       run = (Ok config, w') →
       ∃ overrides w2 config1 w3,
         build_raw_from_options override_options w1 = (Ok overrides, w2)
         ∧ make_config (_merge_dicts raw0 overrides) base w2 = (Ok config1, w3)
         ∧ ((("kvmd" ∉ sections) ∧ config = config1 ∧ w' = w3)
            ∨ ("kvmd" ∈ sections
               ∧ ∃ internal w4 external w5,
                   get_auth_service_class (auth_internal_type config1) w3
                   = (Ok internal, w4)
                   ∧ match external with
                     | None => auth_external_type config1 = "" ∧ w5 = w4
                     | Some cls =>
                         auth_external_type config1 ≠ ""
                         ∧ get_auth_service_class (auth_external_type config1) w4
                           = (Ok cls, w5)
                     end
                   ∧ make_config (_merge_dicts raw0 overrides)
                       (auth_spliced base (get_plugin_options internal)
                          (get_plugin_options <$> external)) w5
                     = (Ok config, w')))).
Proof.
  intros config_path sections override_options w0 w1 raw0 Hload run base fatal.
  assert (Hrun := init_config_after_load config_path sections override_options
                    w0 raw0 w1 Hload).
  fold run in Hrun. subst fatal. cbv beta.
  unfold try_except, mbind, M_bind, bind, mret, M_ret, ret, lift in Hrun.
  split; [|split].
  - intros msg w2 Hbuild. rewrite Hrun, Hbuild. reflexivity.
  - intros overrides w2 Hbuild raw. rewrite Hbuild in Hrun. cbv beta iota zeta in Hrun.
    fold raw base in Hrun. split.
    + intros msg w3 Hpass1. rewrite Hrun, Hpass1. reflexivity.
    + intros config1 w3 Hin Hpass1. rewrite Hpass1 in Hrun.
      rewrite (bool_decide_eq_true_2 _ Hin) in Hrun. split.
      * intros msg w4 Hinternal. rewrite Hrun, Hinternal. reflexivity.
      * intros internal w4 Hinternal. rewrite Hinternal in Hrun.
        subst base. rewrite (scheme_set_auth_internal _ _ Hin) in Hrun. split.
        -- intros msg w5 Hne Hexternal.
           destruct (str_truthy (auth_external_type config1)) eqn:Htruthy.
           ++ rewrite Hrun, Hexternal. reflexivity.
           ++ by apply str_truthy_false in Htruthy.
        -- intros [cls|] w5 msg w6 Hext Hpass2; cbn [fmap option_fmap option_map] in Hpass2.
           ++ destruct Hext as [Hne Hexternal].
              destruct (str_truthy (auth_external_type config1)) eqn:Htruthy.
              ** rewrite Hrun, Hexternal, scheme_set_auth_external, Hpass2. reflexivity.
              ** by apply str_truthy_false in Htruthy.
           ++ destruct Hext as [Hempty ->]. rewrite Hempty in Hrun.
              cbn [str_truthy] in Hrun. rewrite Hrun, Hpass2. reflexivity.
  - intros config w' Hok. rewrite Hrun in Hok. clear Hrun.
    destruct (build_raw_from_options override_options w1) as [[overrides|err] w2];
      [|by destruct err].
    cbv beta iota zeta in Hok.
    destruct (make_config (_merge_dicts raw0 overrides) (_get_config_scheme sections) w2)
      as [[config1|err] w3] eqn:Hpass1; [|by destruct err].
    exists overrides, w2, config1, w3. split; [done|]. split; [done|].
    destruct (decide ("kvmd" ∈ sections)) as [Hin|Hnotin].
    + right. split; [done|].
      rewrite (bool_decide_eq_true_2 _ Hin) in Hok.
      destruct (get_auth_service_class (auth_internal_type config1) w3)
        as [[internal|err] w4] eqn:Hinternal; [|by destruct err].
      rewrite (scheme_set_auth_internal _ _ Hin) in Hok.
      destruct (str_truthy (auth_external_type config1)) eqn:Htruthy.
      * destruct (get_auth_service_class (auth_external_type config1) w4)
          as [[external|err] w5] eqn:Hexternal; [|by destruct err].
        rewrite scheme_set_auth_external in Hok.
        exists internal, w4, (Some external), w5. split; [done|]. split.
        -- split; [|done]. intros Hempty. by rewrite Hempty in Htruthy.
        -- cbn [fmap option_fmap option_map].
           destruct (make_config _ _ w5) as [[config2|err] w6];
             [by (injection Hok as -> ->) | by destruct err].
      * apply str_truthy_false in Htruthy.
        exists internal, w4, None, w4. split; [done|]. split; [done|].
        cbn [fmap option_fmap option_map].
        destruct (make_config _ _ w4) as [[config2|err] w6];
          [by (injection Hok as -> ->) | by destruct err].
    + left. split; [done|].
      rewrite (bool_decide_eq_false_2 _ Hnotin) in Hok. by (injection Hok as -> ->).
Qed.

Lemma init_config_fails_fatally_witness :
  @_init_config demo_collaborators "/etc/kvmd/ldap.yaml" ["logging"; "kvmd"] [] demo_start
  = (Raise (SystemExit "Config error: Unknown plugin 'auth/ldap'"),
     mkDemoWorld [] [(demo_auth_doc "ldap", _get_config_scheme ["logging"; "kvmd"])]).
Proof.
  pose proof (@init_config_fails_fatally demo_collaborators
                "/etc/kvmd/ldap.yaml" ["logging"; "kvmd"] [] demo_start demo_start
                (demo_auth_doc "ldap") eq_refl) as Hall.
  cbv zeta in Hall. destruct Hall as [_ [Hsteps _]].
  destruct (Hsteps [] demo_start eq_refl) as [_ Hpass1].
  assert (Hin : "kvmd" ∈ ["logging"; "kvmd"])
    by (apply (bool_decide_unpack _); vm_compute; exact I).
  destruct (Hpass1 (mkDemoConfig 1 "ldap" "")
              (mkDemoWorld [] [(demo_auth_doc "ldap", _get_config_scheme ["logging"; "kvmd"])])
              Hin eq_refl) as [Hinternal _].
  apply (Hinternal "Unknown plugin 'auth/ldap'"). vm_compute. reflexivity.
Defined.

(** ** The resolver: every failing leaf is reported *)

Section resolver_facts.
Import Resolver.
Variable validate : option validator → value → string + value.

Lemma resolve_node_SDict children raw :
  resolve_node validate (SDict children) raw
  = let plain := resolve_plain validate children raw in
    let conditional := resolve_conditional validate children raw plain.1 in
    let sections := resolve_sections validate children raw in
    (plain.1 ++ conditional.1 ++ sections.1, plain.2 ++ conditional.2 ++ sections.2).
Proof.
  cbn [resolve_node]. cbv zeta.
  match goal with
  | |- (_ ++ _ ++ (?loop children).1, _) = _ =>
      assert (Hloop : ∀ cs, loop cs = resolve_sections validate cs raw)
  end.
  { induction cs as [|[name [o|sub]] rest IH]; cbn [resolve_sections]; [done|done|].
    by rewrite IH. }
  by rewrite Hloop.
Qed.

Lemma resolve_leaf_snd raw name o acc msg :
  validate (opt_type o) (raw_value raw name o) = inl msg →
  (resolve_leaf validate raw name o acc).2 = ([name], msg) :: acc.2.
Proof. intros Hfail. unfold resolve_leaf. by rewrite Hfail. Qed.

Lemma resolve_leaf_keeps raw name o acc f :
  f ∈ acc.2 → f ∈ (resolve_leaf validate raw name o acc).2.
Proof.
  intros Hin. unfold resolve_leaf.
  destruct (validate _ _); cbn; [by apply list_elem_of_further | done].
Qed.

Lemma resolve_leaf_get raw name o acc key :
  dict_get (resolve_leaf validate raw name o acc).1 key
  = match validate (opt_type o) (raw_value raw name o) with
    | inr v => if decide (name = key) then Some v else dict_get acc.1 key
    | inl _ => dict_get acc.1 key
    end.
Proof. unfold resolve_leaf. by destruct (validate _ _). Qed.

(** The first sub-pass records the failure of an unconditional leaf. *)
Lemma plain_reports children raw name o msg :
  dict_get children name = Some (SOpt o) →
  parse_only_if (opt_only_if o) = Always →
  validate (opt_type o) (raw_value raw name o) = inl msg →
  ([name], msg) ∈ (resolve_plain validate children raw).2.
Proof.
  intros Hget Halways Hfail.
  induction children as [|[k child] rest IH]; [done|].
  cbn [dict_get] in Hget. destruct (decide (k = name)) as [->|Hne].
  - injection Hget as ->. cbn [resolve_plain]. rewrite Halways.
    rewrite (resolve_leaf_snd _ _ _ _ _ Hfail). apply list_elem_of_here.
  - specialize (IH Hget). cbn [resolve_plain].
    destruct child as [o'|sub]; [|done].
    destruct (parse_only_if (opt_only_if o')); [|done|done].
    by apply resolve_leaf_keeps.
Qed.

(** The first sub-pass resolves the sibling a rule names. *)
Lemma plain_resolves children raw sibling v :
  sibling_resolves validate children raw sibling v →
  dict_get (resolve_plain validate children raw).1 sibling = Some v.
Proof.
  intros (so & Hget & Halways & Hvalid).
  induction children as [|[k child] rest IH]; [done|].
  cbn [dict_get] in Hget. destruct (decide (k = sibling)) as [->|Hne].
  - injection Hget as ->. cbn [resolve_plain]. rewrite Halways.
    rewrite resolve_leaf_get, Hvalid. by rewrite decide_True.
  - specialize (IH Hget). cbn [resolve_plain].
    destruct child as [o'|sub]; [|done].
    destruct (parse_only_if (opt_only_if o')); [|done|done].
    rewrite resolve_leaf_get.
    destruct (validate (opt_type o') _); [done|]. by rewrite decide_False.
Qed.

Lemma rule_holds_met children raw p :
  rule_holds validate children raw p →
  predicate_met (resolve_plain validate children raw).1 p = true.
Proof.
  destruct p as [|sibling|sibling]; cbn; [done| |].
  - intros (v & Hres & Htruthy). by rewrite (plain_resolves _ _ _ _ Hres).
  - intros (v & Hres & Htruthy). rewrite (plain_resolves _ _ _ _ Hres).
    by rewrite Htruthy.
Qed.

(** The second sub-pass records the failure of a dependent leaf whose
    rule is met. *)
Lemma conditional_reports children raw resolved name o msg :
  dict_get children name = Some (SOpt o) →
  parse_only_if (opt_only_if o) ≠ Always →
  predicate_met resolved (parse_only_if (opt_only_if o)) = true →
  validate (opt_type o) (raw_value raw name o) = inl msg →
  ([name], msg) ∈ (resolve_conditional validate children raw resolved).2.
Proof.
  intros Hget Hrule Hmet Hfail.
  induction children as [|[k child] rest IH]; [done|].
  cbn [dict_get] in Hget. destruct (decide (k = name)) as [->|Hne].
  - injection Hget as ->. cbn [resolve_conditional].
    destruct (parse_only_if (opt_only_if o)) eqn:Hp; [done| |];
      rewrite Hmet, (resolve_leaf_snd _ _ _ _ _ Hfail); apply list_elem_of_here.
  - specialize (IH Hget). cbn [resolve_conditional].
    destruct child as [o'|sub]; [|done].
    destruct (parse_only_if (opt_only_if o')) eqn:Hp'; [done| |];
      (match goal with
       | |- context [if ?met then _ else _] => destruct met
       end; [by apply resolve_leaf_keeps | done]).
Qed.

(** The failures of a child section come back under its name. *)
Lemma sections_report children raw name sub f :
  dict_get children name = Some (SDict sub) →
  f ∈ (resolve_node validate (SDict sub) (sub_raw raw name)).2 →
  under name f ∈ (resolve_sections validate children raw).2.
Proof.
  intros Hget Hin.
  induction children as [|[k child] rest IH]; [done|].
  cbn [dict_get] in Hget. destruct (decide (k = name)) as [->|Hne].
  - injection Hget as ->. cbn [resolve_sections snd].
    apply elem_of_app. left. by apply list_elem_of_fmap_2.
  - specialize (IH Hget). cbn [resolve_sections].
    destruct child as [o'|sub']; [done|]. cbn [snd].
    apply elem_of_app. by right.
Qed.

Lemma leaf_fails_reported children raw path msg :
  leaf_fails validate children raw path msg →
  (path, msg) ∈ (resolve_node validate (SDict children) raw).2.
Proof.
  induction 1 as [children raw name o msg Hget Hrule Hfail
                 |children raw name sub path msg Hget Hbelow IH];
    rewrite resolve_node_SDict; cbv zeta; cbn [snd].
  - destruct (parse_only_if (opt_only_if o)) eqn:Hp.
    + apply elem_of_app. left. by apply (plain_reports _ _ _ o).
    + apply elem_of_app. right. apply elem_of_app. left.
      apply (conditional_reports _ _ _ _ o); [done|by rewrite Hp| |done].
      rewrite Hp. by apply rule_holds_met.
    + apply elem_of_app. right. apply elem_of_app. left.
      apply (conditional_reports _ _ _ _ o); [done|by rewrite Hp| |done].
      rewrite Hp. by apply rule_holds_met.
  - apply elem_of_app. right. apply elem_of_app. right.
    apply (sections_report _ _ _ _ (path, msg) Hget IH).
Qed.
End resolver_facts.

(** C9. When the tree has a failing leaf, one resolution pass fails with
    a single [ConfigError] that holds every failing leaf with its path;
    in particular, of two failing leaves (in the same or in different
    sections) both are in it. *)
Theorem resolve_aggregates_failures :
  ∀ (validate : option validator → value → string + value)
    (schema : scheme) (raw : dict),
    (∀ path msg,
       Resolver.leaf_fails validate schema raw path msg →
       ∃ failures,
         Resolver.resolve validate raw schema = Resolver.ConfigErrorWith failures
         ∧ ∀ path' msg',
             Resolver.leaf_fails validate schema raw path' msg' →
             (path', msg') ∈ failures)
    ∧ (∀ path1 msg1 path2 msg2,
       path1 ≠ path2 →
       Resolver.leaf_fails validate schema raw path1 msg1 →
       Resolver.leaf_fails validate schema raw path2 msg2 →
       ∃ failures,
         Resolver.resolve validate raw schema = Resolver.ConfigErrorWith failures
         ∧ (path1, msg1) ∈ failures ∧ (path2, msg2) ∈ failures
         ∧ (2 ≤ List.length failures)%nat).
Proof.
  intros validate schema raw.
  assert (Hall : ∀ path msg,
    Resolver.leaf_fails validate schema raw path msg →
    ∃ failures,
      Resolver.resolve validate raw schema = Resolver.ConfigErrorWith failures
      ∧ ∀ path' msg',
          Resolver.leaf_fails validate schema raw path' msg' →
          (path', msg') ∈ failures).
  { intros path msg Hfails. unfold Resolver.resolve.
    pose proof (leaf_fails_reported validate schema raw) as Hreported.
    destruct (Resolver.resolve_node validate (SDict schema) raw) as [section failures].
    cbn [snd] in Hreported. destruct failures as [|f failures].
    - by apply Hreported, elem_of_nil in Hfails.
    - exists (f :: failures). split; [done|]. intros path' msg'. apply Hreported. }
  split; [exact Hall|].
  intros path1 msg1 path2 msg2 Hne Hfails1 Hfails2.
  destruct (Hall path1 msg1 Hfails1) as (failures & Hresolve & Hin).
  exists failures. pose proof (Hin _ _ Hfails1) as Hin1. pose proof (Hin _ _ Hfails2) as Hin2.
  repeat split; [done..|].
  destruct failures as [|f1 [|f2 failures]]; cbn; [by apply elem_of_nil in Hin1| |lia].
  apply list_elem_of_singleton in Hin1, Hin2. congruence.
Qed.

Lemma resolve_aggregates_failures_witness :
  ∃ failures,
    Resolver.resolve Resolver.demo_validate Resolver.demo_raw Resolver.demo_schema
    = Resolver.ConfigErrorWith failures
    ∧ (["server"; "port"], "invalid value") ∈ failures
    ∧ (["atx"; "power_led_pin"], "not a GPIO pin") ∈ failures
    ∧ (2 ≤ List.length failures)%nat.
Proof.
  apply (proj2 (resolve_aggregates_failures Resolver.demo_validate
                  Resolver.demo_schema Resolver.demo_raw)).
  - discriminate.
  - eapply Resolver.leaf_fails_below; [reflexivity|].
    eapply Resolver.leaf_fails_here; [reflexivity| exact I | reflexivity].
  - eapply Resolver.leaf_fails_below; [reflexivity|].
    eapply Resolver.leaf_fails_here; [reflexivity| | reflexivity].
    exists (VBool true). split; [|reflexivity].
    eexists. split; [reflexivity|]. split; reflexivity.
Defined.

(** * Further properties of the code *)

(** ** [_merge_dicts]: order, well-formedness, repeated merging *)

Lemma dict_keys_set {A} (d : list (string * A)) key v :
  dict_keys (dict_set d key v)
  = if decide (key ∈ dict_keys d) then dict_keys d else dict_keys d ++ [key].
Proof.
  unfold dict_keys. induction d as [|[k w] d IH]; cbn.
  - rewrite decide_False; [done | apply not_elem_of_nil].
  - destruct (decide (k = key)) as [->|Hne]; cbn.
    + rewrite decide_True; [done | apply list_elem_of_here].
    + rewrite IH. destruct (decide (key ∈ d.*1)) as [Hin|Hnotin].
      * rewrite decide_True; [done | by apply list_elem_of_further].
      * rewrite decide_False; [done|].
        apply not_elem_of_cons. split; [done | done].
Qed.

Lemma merge_step_keys dest skey sv :
  dict_keys
    match dict_get dest skey, sv with
    | Some (VDict dd), VDict sd => dict_set dest skey (VDict (_merge_dicts dd sd))
    | _, _ => dict_set dest skey sv
    end
  = if decide (skey ∈ dict_keys dest) then dict_keys dest else dict_keys dest ++ [skey].
Proof. destruct (dict_get dest skey) as [[]|], sv; apply dict_keys_set. Qed.

Lemma dict_set_id {A} (d : list (string * A)) key v :
  dict_get d key = Some v → dict_set d key v = d.
Proof.
  induction d as [|[k w] d IH]; cbn; [done|].
  destruct (decide (k = key)) as [->|Hne].
  - by intros [= ->].
  - intros Hget. by rewrite IH.
Qed.

Lemma dict_get_elem {A} (d : list (string * A)) key v :
  NoDup (dict_keys d) → (key, v) ∈ d → dict_get d key = Some v.
Proof.
  unfold dict_keys. induction d as [|[k w] d IH]; cbn.
  - by intros _ ?%elem_of_nil.
  - intros [Hfresh Hnd]%NoDup_cons Hin.
    apply elem_of_cons in Hin as [[= -> ->]|Hin].
    + by rewrite decide_True.
    + rewrite decide_False; [by apply IH|].
      intros ->. apply Hfresh. by apply (list_elem_of_fmap_2 fst) in Hin.
Qed.

Lemma dict_wf_NoDup d : dict_wf d → NoDup (dict_keys d).
Proof.
  induction d as [|[k v] d IH]; [intros _; apply NoDup_nil_2|].
  inversion 1; subst. apply NoDup_cons. split; [done | by apply IH].
Qed.

(** Nested induction over a well-formed dict: to prove [Q d] one may
    assume [Q] of every dict stored directly in [d]. *)
Lemma dict_wf_nested_ind (Q : dict → Prop) :
  (∀ d, dict_wf d → (∀ key sd, (key, VDict sd) ∈ d → Q sd) → Q d) →
  ∀ d, dict_wf d → Q d.
Proof.
  intros Hstep d Hwf. apply Hstep; [done|].
  induction Hwf using dict_wf_mut
    with (P0 := λ v _, ∀ sd, v = VDict sd → Q sd).
  - by intros key sd ?%elem_of_nil.
  - intros k sd [[= -> <-]|Hin]%elem_of_cons; [by apply IHHwf | by eapply IHHwf0].
  - intros sd [= <-]. by apply Hstep.
  - intros sd ->. by destruct (n sd).
Qed.

Lemma merge_dicts_cons_set dest key sv rest :
  _merge_dicts dest ((key, sv) :: rest)
  = _merge_dicts (dict_set dest key (merged_value (dict_get dest key) sv)) rest.
Proof.
  rewrite _merge_dicts_cons. unfold merged_value.
  by destruct (dict_get dest key) as [[]|], sv.
Qed.

Lemma merge_dicts_get_value dest src key :
  NoDup (dict_keys src) →
  dict_get (_merge_dicts dest src) key
  = match dict_get src key with
    | Some sv => Some (merged_value (dict_get dest key) sv)
    | None => dict_get dest key
    end.
Proof.
  intros Hnd. rewrite (merge_dicts_get _ _ _ Hnd). unfold merged_value.
  destruct (dict_get src key) as [sv|]; [|done].
  by destruct (dict_get dest key) as [[]|], sv.
Qed.

Lemma dict_get_Some_elem {A} (d : list (string * A)) key v :
  dict_get d key = Some v → (key, v) ∈ d.
Proof.
  induction d as [|[k w] d IH]; cbn; [done|].
  destruct (decide (k = key)) as [->|Hne].
  - intros [= ->]. apply list_elem_of_here.
  - intros Hget. by apply list_elem_of_further, IH.
Qed.

Lemma dict_set_fresh {A} (d : list (string * A)) key v :
  key ∉ dict_keys d → dict_set d key v = d ++ [(key, v)].
Proof.
  unfold dict_keys. induction d as [|[k w] d IH]; cbn; [done|].
  intros [Hne Hnot]%not_elem_of_cons.
  rewrite decide_False by done. by rewrite IH.
Qed.

Lemma filter_ext_elem {A} (P Q : A → Prop) `{∀ x, Decision (P x)} `{∀ x, Decision (Q x)}
    (l : list A) :
  (∀ x, x ∈ l → P x ↔ Q x) → filter P l = filter Q l.
Proof.
  induction l as [|x l IH]; [done|]. intros Hiff. rewrite !filter_cons.
  rewrite IH by (intros y Hy; by apply Hiff, list_elem_of_further).
  pose proof (Hiff x (list_elem_of_here _ _)) as Hx.
  destruct (decide (P x)), (decide (Q x)); tauto.
Qed.

(** X1. The keys of the merged mapping are the keys of the base, in
    their order, followed by the keys that only the override has, in the
    override's order. *)
Theorem merge_dicts_key_order :
  ∀ dest src : dict,
    NoDup (dict_keys src) →
    dict_keys (_merge_dicts dest src)
    = dict_keys dest ++ filter (λ key, key ∉ dict_keys dest) (dict_keys src).
Proof.
  intros dest src. revert dest.
  induction src as [|[skey sv] rest IH]; intros dest Hnd.
  - cbn. by rewrite app_nil_r.
  - change (dict_keys ((skey, sv) :: rest)) with (skey :: dict_keys rest) in *.
    apply NoDup_cons in Hnd as [Hfresh Hnd].
    rewrite _merge_dicts_cons, IH, merge_step_keys by done.
    rewrite filter_cons. destruct (decide (skey ∈ dict_keys dest)) as [Hin|Hnotin].
    + by rewrite decide_False by (intros Hnot; by apply Hnot).
    + rewrite decide_True by done. rewrite <- app_assoc. cbn. do 2 f_equal.
      apply filter_ext_elem. intros k Hk. split.
      * intros Hnot Hin. apply Hnot, elem_of_app. by left.
      * intros Hnot [Hin|Hin%list_elem_of_singleton]%elem_of_app; [done|].
        by subst.
Qed.

Lemma merge_dicts_key_order_witness :
  dict_keys
    (_merge_dicts [("b", VInt 1); ("a", VInt 2)] [("c", VInt 3); ("a", VInt 4); ("d", VInt 5)])
  = ["b"; "a"; "c"; "d"].
Proof.
  apply (merge_dicts_key_order [("b", VInt 1); ("a", VInt 2)]
           [("c", VInt 3); ("a", VInt 4); ("d", VInt 5)]).
  apply (bool_decide_unpack _). vm_compute. exact I.
Defined.

(** X3. When no key of the override is a key of the base, merging
    appends the override's items, in order, to the base; merging into
    the empty mapping gives the override back. *)
Theorem merge_dicts_disjoint_appends :
  (∀ dest src : dict,
     NoDup (dict_keys src) →
     (∀ key, key ∈ dict_keys src → key ∉ dict_keys dest) →
     _merge_dicts dest src = dest ++ src)
  ∧ (∀ src : dict, NoDup (dict_keys src) → _merge_dicts [] src = src).
Proof.
  assert (Happ : ∀ dest src : dict,
    NoDup (dict_keys src) →
    (∀ key, key ∈ dict_keys src → key ∉ dict_keys dest) →
    _merge_dicts dest src = dest ++ src).
  { intros dest src. revert dest.
    induction src as [|[skey sv] rest IH]; intros dest Hnd Hdisj.
    - cbn. by rewrite app_nil_r.
    - change (dict_keys ((skey, sv) :: rest)) with (skey :: dict_keys rest) in *.
      apply NoDup_cons in Hnd as [Hfresh Hnd].
      assert (Hnew : skey ∉ dict_keys dest) by apply Hdisj, list_elem_of_here.
      rewrite merge_dicts_cons_set, (dict_get_None dest skey Hnew).
      cbn [merged_value]. rewrite dict_set_fresh by done.
      rewrite IH; [by rewrite <- app_assoc|done|].
      intros key Hkey. unfold dict_keys. rewrite fmap_app. cbn.
      intros [Hin|Hin%list_elem_of_singleton]%elem_of_app.
      + by apply (Hdisj key); [apply list_elem_of_further|].
      + by subst. }
  split; [exact Happ|].
  intros src Hnd. apply (Happ [] src Hnd). intros key _. apply not_elem_of_nil.
Qed.

Lemma merge_dicts_disjoint_appends_witness :
  _merge_dicts [] [("kvmd", VDict [("hid", VDict [("noop", VStr "true")])]); ("x", VInt 1)]
  = [("kvmd", VDict [("hid", VDict [("noop", VStr "true")])]); ("x", VInt 1)].
Proof.
  apply (proj2 merge_dicts_disjoint_appends).
  apply (bool_decide_unpack _). vm_compute. exact I.
Defined.

Lemma dict_wf_elem d key v : dict_wf d → (key, v) ∈ d → value_wf v.
Proof.
  induction d as [|[k w] d IH]; [by intros _ ?%elem_of_nil|].
  inversion 1; subst.
  intros [[= -> ->]|Hin]%elem_of_cons; [done | by apply IH].
Qed.

Lemma dict_wf_set d key v : dict_wf d → value_wf v → dict_wf (dict_set d key v).
Proof.
  intros Hwf Hv. induction d as [|[k w] d IH]; cbn.
  - constructor; [apply not_elem_of_nil | done | constructor].
  - inversion Hwf; subst. destruct (decide (k = key)) as [->|Hne].
    + by constructor.
    + constructor; [|done|by apply IH].
      rewrite dict_keys_set. destruct (decide (key ∈ dict_keys d)); [done|].
      intros [Hin|Hin%list_elem_of_singleton]%elem_of_app; [done | by subst].
Qed.

Lemma merged_value_wf dest key sv :
  dict_wf dest → value_wf sv →
  (∀ sd, sv = VDict sd → ∀ dd, dict_wf dd → dict_wf (_merge_dicts dd sd)) →
  value_wf (merged_value (dict_get dest key) sv).
Proof.
  intros Hdest Hsv Hrec. unfold merged_value.
  destruct (dict_get dest key) as [old|] eqn:Hget; [|done].
  apply dict_get_Some_elem, (dict_wf_elem _ _ _ Hdest) in Hget.
  destruct old; try done. destruct sv; try done.
  constructor. apply (Hrec _ eq_refl).
  inversion Hget as [? Hdd|? Hleaf]; [done | by destruct (Hleaf d)].
Qed.

(** X2. Merging keeps a document well formed: when the keys of the base
    and of the override are distinct at every depth, so are the keys of
    the merged mapping. *)
Theorem merge_dicts_keeps_keys_distinct :
  ∀ dest src : dict, dict_wf dest → dict_wf src → dict_wf (_merge_dicts dest src).
Proof.
  intros dest src Hdest Hsrc. revert dest Hdest.
  induction Hsrc as [src Hsrc Hnested] using dict_wf_nested_ind.
  assert (Hitems : ∀ key v, (key, v) ∈ src → value_wf v)
    by (intros key v; apply dict_wf_elem, Hsrc).
  clear Hsrc. induction src as [|[skey sv] rest IH]; intros dest Hdest; [done|].
  rewrite merge_dicts_cons_set. apply IH.
  - intros key sd Hin. apply (Hnested key), list_elem_of_further, Hin.
  - intros key v Hin. apply (Hitems key), list_elem_of_further, Hin.
  - apply dict_wf_set; [done|]. apply merged_value_wf; [done| |].
    + apply (Hitems skey), list_elem_of_here.
    + intros sd ->. apply (Hnested skey), list_elem_of_here.
Qed.

Lemma merge_dicts_keeps_keys_distinct_witness :
  dict_wf (_merge_dicts [("a", VDict [("x", VInt 1)])] [("a", VDict [("y", VInt 2)])]).
Proof.
  apply merge_dicts_keeps_keys_distinct.
  - constructor; [apply not_elem_of_nil| |constructor].
    constructor. constructor; [apply not_elem_of_nil| |constructor].
    by apply value_wf_leaf.
  - constructor; [apply not_elem_of_nil| |constructor].
    constructor. constructor; [apply not_elem_of_nil| |constructor].
    by apply value_wf_leaf.
Defined.

Lemma merge_dicts_fixed (R rest : dict) :
  (∀ key sv, (key, sv) ∈ rest →
     dict_get R key = Some (merged_value (dict_get R key) sv)) →
  _merge_dicts R rest = R.
Proof.
  induction rest as [|[skey sv] rest IH]; intros Hfixed; [done|].
  rewrite merge_dicts_cons_set.
  rewrite dict_set_id by (symmetry; symmetry; apply Hfixed, list_elem_of_here).
  apply IH. intros key v Hin. apply Hfixed, list_elem_of_further, Hin.
Qed.

(** X4. Merging the same override a second time changes nothing, and
    merging a mapping into itself gives it back. *)
Theorem merge_dicts_idempotent :
  ∀ src : dict,
    dict_wf src →
    (∀ dest : dict, _merge_dicts (_merge_dicts dest src) src = _merge_dicts dest src)
    ∧ _merge_dicts src src = src.
Proof.
  intros src Hsrc.
  induction Hsrc as [src Hsrc Hnested] using dict_wf_nested_ind.
  pose proof (dict_wf_NoDup _ Hsrc) as Hnd. split.
  - intros dest. apply merge_dicts_fixed. intros key sv Hin.
    pose proof (dict_get_elem _ _ _ Hnd Hin) as Hget.
    rewrite !(merge_dicts_get_value _ _ _ Hnd), Hget. f_equal.
    unfold merged_value at 1 3.
    destruct sv as [| | | | | |sd]; try by destruct (dict_get dest key) as [[]|].
    destruct (Hnested key sd Hin) as [Htwice Hself].
    unfold merged_value.
    destruct (dict_get dest key) as [[| | | | | |dd]|]; by rewrite ?Htwice, ?Hself.
  - apply merge_dicts_fixed. intros key sv Hin.
    rewrite (dict_get_elem _ _ _ Hnd Hin). f_equal. unfold merged_value.
    destruct sv as [| | | | | |sd]; try done.
    destruct (Hnested key sd Hin) as [_ Hself]. by rewrite Hself.
Qed.

Lemma merge_dicts_idempotent_witness :
  _merge_dicts
    (_merge_dicts [("a", VDict [("x", VInt 1)]); ("b", VInt 0)]
       [("a", VDict [("y", VInt 2)]); ("b", VDict [])])
    [("a", VDict [("y", VInt 2)]); ("b", VDict [])]
  = _merge_dicts [("a", VDict [("x", VInt 1)]); ("b", VInt 0)]
      [("a", VDict [("y", VInt 2)]); ("b", VDict [])].
Proof.
  apply (merge_dicts_idempotent [("a", VDict [("y", VInt 2)]); ("b", VDict [])]).
  constructor.
  - apply (bool_decide_unpack _). vm_compute. exact I.
  - constructor. constructor; [apply not_elem_of_nil| |constructor].
    by apply value_wf_leaf.
  - constructor; [apply not_elem_of_nil| |constructor].
    constructor. constructor.
Defined.

Lemma path_get_one d key : path_get d [key] = dict_get d key.
Proof. cbn. by destruct (dict_get d key) as [[]|]. Qed.

Lemma path_get_more d key key' rest :
  path_get d (key :: key' :: rest)
  = match dict_get d key with
    | Some (VDict sub) => path_get sub (key' :: rest)
    | _ => None
    end.
Proof. cbn. by destruct (dict_get d key) as [[]|]. Qed.

(** X5. A leaf the override sets wins at any depth: if the override
    holds a value that is not a mapping at a path, the merged mapping
    holds that value at that path, whatever the base held along it. *)
Theorem merge_dicts_override_wins_at_path :
  ∀ (dest src : dict) (path : list string) (v : value),
    dict_wf src →
    path_get src path = Some v →
    (∀ d, v ≠ VDict d) →
    path_get (_merge_dicts dest src) path = Some v.
Proof.
  intros dest src path v Hsrc. revert dest path v.
  induction Hsrc as [src Hsrc Hnested] using dict_wf_nested_ind.
  intros dest [|key rest] v Hpath Hleaf; [done|].
  pose proof (dict_wf_NoDup _ Hsrc) as Hnd.
  destruct rest as [|key' rest].
  - rewrite path_get_one in Hpath |- *.
    rewrite (merge_dicts_get_value _ _ _ Hnd), Hpath. f_equal. unfold merged_value.
    destruct (dict_get dest key) as [[]|], v; try done. by destruct (Hleaf d0).
  - rewrite path_get_more in Hpath |- *.
    rewrite (merge_dicts_get_value _ _ _ Hnd).
    destruct (dict_get src key) as [[| | | | | |sd]|] eqn:Hget; try done.
    apply dict_get_Some_elem in Hget. unfold merged_value.
    destruct (dict_get dest key) as [[| | | | | |dd]|]; try done.
    by apply (Hnested key sd Hget).
Qed.

Lemma merge_dicts_override_wins_at_path_witness :
  path_get
    (_merge_dicts [("kvmd", VDict [("server", VInt 7)])]
       [("kvmd", VDict [("server", VDict [("port", VStr "8081")])])])
    ["kvmd"; "server"; "port"]
  = Some (VStr "8081").
Proof.
  apply merge_dicts_override_wins_at_path; [|reflexivity|discriminate].
  constructor; [apply not_elem_of_nil| |constructor].
  constructor. constructor; [apply not_elem_of_nil| |constructor].
  constructor. constructor; [apply not_elem_of_nil| |constructor].
  by apply value_wf_leaf.
Defined.

(** X6. What the override does not mention survives at any depth: a
    value the base holds at a path that the override leaves alone is
    still there after the merge. *)
Theorem merge_dicts_keeps_untouched_path :
  ∀ (dest src : dict) (path : list string) (v : value),
    dict_wf src →
    path_untouched src path = true →
    path_get dest path = Some v →
    path_get (_merge_dicts dest src) path = Some v.
Proof.
  intros dest src path v Hsrc. revert dest path v.
  induction Hsrc as [src Hsrc Hnested] using dict_wf_nested_ind.
  intros dest [|key rest] v Huntouched Hpath; [done|].
  pose proof (dict_wf_NoDup _ Hsrc) as Hnd.
  destruct rest as [|key' rest].
  - rewrite path_get_one in Hpath |- *.
    rewrite (merge_dicts_get_value _ _ _ Hnd). cbn in Huntouched.
    by destruct (dict_get src key) as [[]|].
  - rewrite path_get_more in Hpath |- *.
    rewrite (merge_dicts_get_value _ _ _ Hnd). cbn [path_untouched] in Huntouched.
    destruct (dict_get src key) as [[| | | | | |sd]|] eqn:Hget; try done.
    apply dict_get_Some_elem in Hget. unfold merged_value.
    destruct (dict_get dest key) as [[| | | | | |dd]|]; try done.
    by apply (Hnested key sd Hget).
Qed.

Lemma merge_dicts_keeps_untouched_path_witness :
  path_get
    (_merge_dicts [("a", VDict [("x", VInt 1); ("y", VInt 2)])] [("a", VDict [("x", VInt 9)])])
    ["a"; "y"]
  = Some (VInt 2).
Proof.
  apply merge_dicts_keeps_untouched_path; [|reflexivity|reflexivity].
  constructor; [apply not_elem_of_nil| |constructor].
  constructor. constructor; [apply not_elem_of_nil| |constructor].
  by apply value_wf_leaf.
Defined.

(** ** [_get_config_scheme]: what the list of names is used for *)

(** X7. Of a non-empty list of section names only the membership of
    "logging", "kvmd" and "ipmi" matters: order, repetitions and unknown
    names make no difference, and a list without any of the three names
    selects the empty scheme (not the full one). *)
Theorem get_config_scheme_by_membership :
  (∀ sections sections' : list string,
     sections ≠ [] → sections' ≠ [] →
     (∀ key, key ∈ ["logging"; "kvmd"; "ipmi"] → key ∈ sections ↔ key ∈ sections') →
     _get_config_scheme sections = _get_config_scheme sections')
  ∧ (∀ sections : list string,
       sections ≠ [] →
       (∀ key, key ∈ ["logging"; "kvmd"; "ipmi"] → key ∉ sections) →
       _get_config_scheme sections = []).
Proof.
  assert (Hsame : ∀ sections sections' : list string,
    sections ≠ [] → sections' ≠ [] →
    (∀ key, key ∈ ["logging"; "kvmd"; "ipmi"] → key ∈ sections ↔ key ∈ sections') →
    _get_config_scheme sections = _get_config_scheme sections').
  { intros [|s1 l1] [|s2 l2] Hne1 Hne2 Hiff; try done.
    unfold _get_config_scheme. apply filter_ext_elem. intros [key node] Hin. cbn [fst].
    apply Hiff. apply (list_elem_of_fmap_2 fst) in Hin. exact Hin. }
  split; [exact Hsame|].
  intros sections Hne Hnone.
  rewrite (Hsame sections ["-"] Hne); [by vm_compute|done|].
  intros key Hkey. split; [by intros ?%Hnone|].
  intros ->%list_elem_of_singleton. exfalso.
  repeat (apply elem_of_cons in Hkey as [Hkey|Hkey]; [discriminate Hkey|]).
  by apply elem_of_nil in Hkey.
Qed.

Lemma get_config_scheme_by_membership_witness :
  _get_config_scheme ["ipmi"; "bogus"; "logging"; "ipmi"] = _get_config_scheme ["logging"; "ipmi"].
Proof.
  apply (proj1 get_config_scheme_by_membership); [done|done|].
  intros key Hkey.
  assert (Hcases : key = "logging" ∨ key = "kvmd" ∨ key = "ipmi").
  { apply elem_of_cons in Hkey as [->|Hkey]; [by left|].
    apply elem_of_cons in Hkey as [->|Hkey]; [by right; left|].
    apply elem_of_cons in Hkey as [->|Hkey]; [by right; right|].
    by apply elem_of_nil in Hkey. }
  destruct Hcases as [Hk|[Hk|Hk]]; subst key.
  - split; intros _; apply (bool_decide_unpack _); vm_compute; exact I.
  - split; intros Hin; exfalso;
      repeat (apply elem_of_cons in Hin as [Hin|Hin]; [discriminate Hin|]);
      by apply elem_of_nil in Hin.
  - split; intros _; apply (bool_decide_unpack _); vm_compute; exact I.
Defined.

Lemma get_config_scheme_ok (sections : list string) :
  scheme_node_ok (SDict (_get_config_scheme sections)) = true.
Proof.
  destruct sections as [|section others]; [by vm_compute|].
  unfold _get_config_scheme. rewrite !filter_cons, filter_nil. cbn [fst].
  destruct (decide ("logging" ∈ section :: others));
    destruct (decide ("kvmd" ∈ section :: others));
    destruct (decide ("ipmi" ∈ section :: others)); by vm_compute.
Qed.

(** X8. Whatever the list of section names, the scheme returned is
    sound: at every level the names are distinct, and every [only_if]
    names an option of the same section that has no [only_if] itself. *)
Theorem get_config_scheme_sound :
  ∀ sections : list string, scheme_node_ok (SDict (_get_config_scheme sections)) = true.
Proof. exact get_config_scheme_ok. Qed.

(** ** [get_plugin_name]: the other direction *)

Lemma str_rindex_dot_Some (s : string) (i : nat) :
  str_rindex_dot s = Some i →
  ∃ prefix last,
    s = prefix +:+ "." +:+ last
    ∧ String.length prefix = i
    ∧ ¬ In "."%char (list_ascii_of_string last).
Proof.
  revert i. induction s as [|c s IH]; intros i; cbn; [done|].
  destruct (str_rindex_dot s) as [j|] eqn:Hrest.
  - intros [= <-]. destruct (IH j eq_refl) as (prefix & last & -> & <- & Hnot).
    by exists (String c prefix), last.
  - destruct (decide (c = "."%char)) as [->|Hne]; [|done].
    intros [= <-]. exists "", s. repeat split.
    clear IH. induction s as [|c s IHs]; cbn; [tauto|].
    cbn in Hrest. destruct (str_rindex_dot s); [done|].
    destruct (decide (c = "."%char)); [done|].
    intros [Heq|Hin]; [by subst | by apply IHs].
Qed.

Lemma str_rindex_dot_None_inv (s : string) :
  str_rindex_dot s = None → ¬ In "."%char (list_ascii_of_string s).
Proof.
  induction s as [|c s IH]; cbn; [tauto|].
  destruct (str_rindex_dot s); [done|].
  destruct (decide (c = "."%char)); [done|].
  intros _ [Heq|Hin]; [by subst | by apply IH].
Qed.

(** X9. [get_plugin_name] raises [ValueError] exactly when the module
    name of the class has no dot; when it returns, the module name is
    some prefix, a dot, and the returned name, and the returned name has
    no dot in it. *)
Theorem get_plugin_name_total_picture :
  ∀ cls : plugin_class,
    (¬ In "."%char (list_ascii_of_string (cls_module cls)) ↔
     get_plugin_name cls = Raise (ValueError "substring not found"))
    ∧ (∀ name,
       get_plugin_name cls = Ok name →
       (∃ prefix, cls_module cls = prefix +:+ "." +:+ name)
       ∧ ¬ In "."%char (list_ascii_of_string name)).
Proof.
  intros cls. unfold get_plugin_name. split; [split|].
  - intros Hnot. by rewrite (str_rindex_dot_None _ Hnot).
  - destruct (str_rindex_dot (cls_module cls)) eqn:Hdot; [done|].
    intros _. by apply str_rindex_dot_None_inv.
  - intros name. destruct (str_rindex_dot (cls_module cls)) as [i|] eqn:Hdot; [|done].
    destruct (str_rindex_dot_Some _ _ Hdot) as (prefix & last & Hmod & <- & Hnot).
    rewrite Hmod, str_from_after_dot. intros [= <-]. split; [by exists prefix | done].
Qed.

Lemma get_plugin_name_total_picture_witness :
  get_plugin_name (mkPluginClass 5 "__main__" None) = Raise (ValueError "substring not found").
Proof.
  apply (proj1 (get_plugin_name_total_picture (mkPluginClass 5 "__main__" None))).
  cbn. intros H. repeat destruct H as [H|H]; try discriminate H. exact H.
Defined.

(** ** [get_plugin_class]: what is and is not kept in the cache *)

Section lru_bounds.
Context {K V : Type} `{EqDecision K}.
Implicit Types (cache : list (K * V)) (f : K → result V).

Lemma cache_get_fresh cache key : key ∉ cache.*1 → cache_get cache key = None.
Proof.
  induction cache as [|[k w] cache IH]; cbn; [done|].
  intros [Hne Hnot]%not_elem_of_cons. rewrite decide_False by done. by apply IH.
Qed.

Lemma cache_remove_shorter cache key v :
  cache_get cache key = Some v → length (cache_remove cache key) < length cache.
Proof.
  unfold cache_remove. induction cache as [|[k w] cache IH]; [done|].
  rewrite filter_cons. cbn [fst cache_get length].
  destruct (decide (k = key)) as [->|Hne].
  - intros _. rewrite decide_False by (intros Hne; by apply Hne).
    pose proof (length_filter (λ entry : K * V, entry.1 ≠ key) cache). lia.
  - intros Hget. rewrite decide_True by done. cbn [length]. specialize (IH Hget). lia.
Qed.

Lemma lru_call_raise_unchanged f key cache err cache' :
  lru_call f key cache = (Raise err, cache') →
  cache' = cache ∧ cache_get cache key = None ∧ f key = Raise err.
Proof.
  unfold lru_call. destruct (cache_get cache key) as [v|]; [done|].
  destruct (f key) as [v|e]; [done|]. by intros [= <- <-].
Qed.

(** A call never leaves more than [lru_maxsize] entries. *)
Lemma lru_call_length_bounded f key cache :
  length cache ≤ lru_maxsize → length (lru_call f key cache).2 ≤ lru_maxsize.
Proof.
  intros Hlen. unfold lru_call.
  destruct (cache_get cache key) as [v|] eqn:Hget; cbn [snd].
  - pose proof (cache_remove_shorter _ _ _ Hget). cbn [length]. lia.
  - destruct (f key) as [v|err]; cbn [snd]; [|done].
    rewrite length_take. lia.
Qed.

(** A full cache drops its last entry when a new key is stored. *)
Lemma lru_call_evicts f key cache v front old w :
  cache = front ++ [(old, w)] →
  length cache = lru_maxsize → NoDup cache.*1 →
  cache_get cache key = None → f key = Ok v →
  (lru_call f key cache).2 = (key, v) :: front
  ∧ cache_get (lru_call f key cache).2 old = None.
Proof.
  intros -> Hlen Hnd Hmiss Hf. unfold lru_call. rewrite Hmiss, Hf. cbn [snd].
  rewrite length_app in Hlen. cbn in Hlen.
  assert (Hcache : take lru_maxsize ((key, v) :: front ++ [(old, w)]) = (key, v) :: front).
  { replace lru_maxsize with (S (length front)) by lia. cbn [take]. f_equal.
    apply take_app_length. }
  rewrite Hcache. split; [done|].
  apply cache_get_None_keys in Hmiss.
  rewrite fmap_app in Hmiss, Hnd. cbn in Hmiss, Hnd.
  apply cache_get_fresh. rewrite fmap_cons. cbn [fst]. apply not_elem_of_cons. split.
  - intros ->. apply Hmiss, elem_of_app. right. apply list_elem_of_here.
  - apply NoDup_app in Hnd as (_ & Hdisj & _). intros Hin.
    apply (Hdisj old Hin), list_elem_of_here.
Qed.
End lru_bounds.

(** X10. A lookup that raises leaves the cache as it was, so the
    failure is not remembered: once the module is there and binds
    [Plugin], the next lookup of the same pair resolves it. *)
Theorem get_plugin_class_failure_not_cached :
  ∀ (mods : modules) (sub name : string) (cache cache' : plugin_cache) (err : exn),
    get_plugin_class mods sub name cache = (Raise err, cache') →
    cache' = cache
    ∧ ∀ (mods' : modules) (module : pymodule) (cls : plugin_class),
        mods' !! plugin_module_name sub name = Some (Ok module) →
        module !! "Plugin" = Some cls →
        (get_plugin_class mods' sub name cache').1 = Ok cls.
Proof.
  intros mods sub name cache cache' err Hcall.
  apply lru_call_raise_unchanged in Hcall as (-> & Hmiss & _).
  split; [done|]. intros mods' module cls Hmod Hattr.
  unfold get_plugin_class, lru_call. rewrite Hmiss.
  unfold get_plugin_class_uncached, import_module, getattr. by rewrite Hmod, Hattr.
Qed.

Lemma get_plugin_class_failure_not_cached_witness :
  (get_plugin_class demo_modules "auth" "htpasswd" []).1 = Ok htpasswd_plugin.
Proof.
  refine (proj2 (get_plugin_class_failure_not_cached ∅ "auth" "htpasswd" [] []
                   (UnknownPluginError "Unknown plugin 'auth/htpasswd'") _)
            demo_modules {[ "Plugin" := htpasswd_plugin ]} htpasswd_plugin _ _);
    vm_compute; reflexivity.
Defined.

(** X11. [get_plugin_class] never raises [ModuleNotFoundError]; an
    import that fails with any other exception is not reported as an
    unknown plugin: that exception comes out as it is, and nothing is
    cached. *)
Theorem get_plugin_class_import_errors :
  ∀ (mods : modules) (sub name : string) (cache : plugin_cache),
    (∀ msg, (get_plugin_class mods sub name cache).1 ≠ Raise (ModuleNotFoundError msg))
    ∧ (∀ err,
       cache_get cache (sub, name) = None →
       mods !! plugin_module_name sub name = Some (Raise err) →
       (∀ msg, err ≠ ModuleNotFoundError msg) →
       get_plugin_class mods sub name cache = (Raise err, cache)).
Proof.
  intros mods sub name cache. split.
  - intros msg. unfold get_plugin_class, lru_call.
    destruct (cache_get cache (sub, name)); [done|].
    unfold get_plugin_class_uncached, import_module, getattr.
    destruct (mods !! plugin_module_name sub name) as [[module|err]|]; cbn; [| |done].
    + by destruct (module !! "Plugin").
    + by destruct err.
  - intros err Hmiss Hmod Hother. apply lru_call_miss_raise; [done|].
    unfold get_plugin_class_uncached, import_module. rewrite Hmod.
    destruct err; try done. by destruct (Hother msg).
Qed.

Lemma get_plugin_class_import_errors_witness :
  get_plugin_class
    {[ "kvmd.plugins.auth.pam" := Raise (ImportError "cannot import name 'pam'") ]}
    "auth" "pam" []
  = (Raise (ImportError "cannot import name 'pam'"), []).
Proof.
  apply (proj2 (get_plugin_class_import_errors _ "auth" "pam" [])); [reflexivity| |done].
  vm_compute. reflexivity.
Defined.

(** X12. The cache of [get_plugin_class] never holds more than
    [lru_maxsize] = 128 entries: each lookup keeps the bound, and it
    holds after any run of lookups from the empty cache. *)
Theorem get_plugin_class_cache_bounded :
  (∀ (mods : modules) (sub name : string) (cache : plugin_cache),
     length cache ≤ lru_maxsize →
     length (get_plugin_class mods sub name cache).2 ≤ lru_maxsize)
  ∧ (∀ (mods : modules) (calls : list (string * string)),
       length (run_lookups mods calls []).2 ≤ lru_maxsize).
Proof.
  assert (Hstep : ∀ (mods : modules) (sub name : string) (cache : plugin_cache),
    length cache ≤ lru_maxsize →
    length (get_plugin_class mods sub name cache).2 ≤ lru_maxsize).
  { intros mods sub name cache. apply lru_call_length_bounded. }
  split; [exact Hstep|].
  intros mods calls.
  assert (Hrun : ∀ cache : plugin_cache,
    length cache ≤ lru_maxsize →
    length (run_lookups mods calls cache).2 ≤ lru_maxsize).
  { induction calls as [|[sub name] calls IH]; intros cache Hlen; [done|].
    cbn [run_lookups].
    pose proof (Hstep mods sub name cache Hlen) as Hlen'.
    destruct (get_plugin_class mods sub name cache) as [r cache'].
    specialize (IH cache' Hlen').
    by destruct (run_lookups mods calls cache'). }
  apply Hrun. cbn. unfold lru_maxsize. lia.
Qed.

Lemma get_plugin_class_cache_bounded_witness :
  length (get_plugin_class demo_modules "auth" "htpasswd" demo_full_cache).2 ≤ lru_maxsize.
Proof.
  apply (proj1 get_plugin_class_cache_bounded).
  vm_compute. lia.
Defined.

(** X13. The memory is bounded: when the cache is full and a pair that
    is not in it resolves, the least recently used pair is dropped, and
    the next lookup of that pair goes back to the import system. *)
Theorem get_plugin_class_evicts_oldest :
  ∀ (mods : modules) (sub name : string) (front : plugin_cache)
    (old : string * string) (old_cls cls : plugin_class),
    length (front ++ [(old, old_cls)]) = lru_maxsize →
    NoDup (front ++ [(old, old_cls)]).*1 →
    cache_get (front ++ [(old, old_cls)]) (sub, name) = None →
    get_plugin_class_uncached mods (sub, name) = Ok cls →
    let cache' := (get_plugin_class mods sub name (front ++ [(old, old_cls)])).2 in
    cache' = ((sub, name), cls) :: front
    ∧ cache_get cache' old = None
    ∧ ∀ mods', (get_plugin_class mods' old.1 old.2 cache').1
               = get_plugin_class_uncached mods' old.
Proof.
  intros mods sub name front old old_cls cls Hlen Hnd Hmiss Hfound cache'.
  destruct (lru_call_evicts (get_plugin_class_uncached mods) (sub, name)
              (front ++ [(old, old_cls)]) cls front old old_cls eq_refl Hlen Hnd Hmiss Hfound)
    as [Hcache Hgone].
  fold (get_plugin_class mods sub name (front ++ [(old, old_cls)])) in Hcache, Hgone.
  fold cache' in Hcache, Hgone. split; [done|]. split; [done|].
  intros mods'. destruct old as [osub oname]. unfold get_plugin_class, lru_call.
  cbn [fst snd]. rewrite Hgone. by destruct (get_plugin_class_uncached mods' (osub, oname)).
Qed.

Lemma get_plugin_class_evicts_oldest_witness :
  cache_get (get_plugin_class demo_modules "auth" "htpasswd" demo_full_cache).2
    (String (ascii_of_nat 127) EmptyString, "p") = None.
Proof.
  refine (proj1 (proj2 (get_plugin_class_evicts_oldest demo_modules "auth" "htpasswd"
            (take 127 demo_full_cache) (String (ascii_of_nat 127) EmptyString, "p")
            BasePlugin htpasswd_plugin _ _ _ _))).
  - vm_compute. reflexivity.
  - apply (bool_decide_unpack _). vm_compute. exact I.
  - vm_compute. reflexivity.
  - vm_compute. reflexivity.
Defined.

(** ** [_init_config]: what the [try] covers and what it lets through *)

Section init_config_escapes.
Context `{Collaborators}.

Lemma try_except_exit_never_config {A} (m : M A) (w : world) (msg : string) :
  (try_except m exit_on_config_error w).1 ≠ Raise (ConfigError msg)
  ∧ (try_except m exit_on_config_error w).1 ≠ Raise (UnknownPluginError msg).
Proof.
  unfold try_except. destruct (m w) as [[a|err] w']; [done|].
  by destruct err.
Qed.

Lemma exit_on_config_error_passes {A} (err : exn) (w : world) :
  is_config_error err = false →
  @exit_on_config_error _ A err w = (Raise err, w).
Proof. by destruct err. Qed.
End init_config_escapes.

(** X14. The loader is called outside the [try]: whatever
    [load_yaml_file] raises comes out of [_init_config] unchanged, a
    [ConfigError] included.  Once the document is loaded,
    [_init_config] never raises [ConfigError] or [UnknownPluginError]
    itself. *)
Theorem init_config_loader_outside_try `{Collaborators} :
  ∀ (config_path : string) (sections override_options : list string) (w0 : world),
    (∀ err w1,
       load_yaml_file (expanduser config_path) w0 = (Raise err, w1) →
       _init_config config_path sections override_options w0 = (Raise err, w1))
    ∧ (∀ raw0 w1 msg,
       load_yaml_file (expanduser config_path) w0 = (Ok raw0, w1) →
       (_init_config config_path sections override_options w0).1 ≠ Raise (ConfigError msg)
       ∧ (_init_config config_path sections override_options w0).1
         ≠ Raise (UnknownPluginError msg)).
Proof.
  intros config_path sections override_options w0. split.
  - intros err w1 Hload. unfold _init_config, mbind, M_bind, bind.
    cbv beta iota zeta. by rewrite Hload.
  - intros raw0 w1 msg Hload.
    rewrite (init_config_after_load _ _ _ _ _ _ Hload).
    apply try_except_exit_never_config.
Qed.

Lemma init_config_loader_outside_try_witness :
  @_init_config demo_collaborators "/etc/kvmd/missing.yaml" ["kvmd"] [] demo_start
  = (Raise (OtherError "FileNotFoundError" "/etc/kvmd/missing.yaml"), demo_start).
Proof.
  apply (proj1 (@init_config_loader_outside_try demo_collaborators
                  "/etc/kvmd/missing.yaml" ["kvmd"] [] demo_start)).
  reflexivity.
Defined.

(** X15. The [except] clause names two classes only.  Any other
    exception raised inside the [try] - by the option parser, by a
    resolution pass, or by a plugin lookup, such as the [AttributeError]
    of a plugin module without [Plugin] - comes out of [_init_config]
    unchanged, not as a configuration error. *)
Theorem init_config_other_exceptions_pass `{Collaborators} :
  ∀ (config_path : string) (sections override_options : list string)
    (w0 w1 : world) (raw0 : dict) (err : exn),
    load_yaml_file (expanduser config_path) w0 = (Ok raw0, w1) →
    is_config_error err = false →
    let run := _init_config config_path sections override_options w0 in
    let base := _get_config_scheme sections in
    (∀ w2,
       build_raw_from_options override_options w1 = (Raise err, w2) → run = (Raise err, w2))
    ∧ (∀ overrides w2,
       build_raw_from_options override_options w1 = (Ok overrides, w2) →
       let raw := _merge_dicts raw0 overrides in
       (∀ w3, make_config raw base w2 = (Raise err, w3) → run = (Raise err, w3))
       ∧ (∀ config1 w3,
          "kvmd" ∈ sections →
          make_config raw base w2 = (Ok config1, w3) →
          (∀ w4,
             get_auth_service_class (auth_internal_type config1) w3 = (Raise err, w4) →
             run = (Raise err, w4))
          ∧ (∀ internal w4,
             get_auth_service_class (auth_internal_type config1) w3 = (Ok internal, w4) →
             (∀ w5,
                auth_external_type config1 ≠ "" →
                get_auth_service_class (auth_external_type config1) w4 = (Raise err, w5) →
                run = (Raise err, w5))
             ∧ (∀ external w5 w6,
                match external with
                | None => auth_external_type config1 = "" ∧ w5 = w4
                | Some cls =>
                    auth_external_type config1 ≠ ""
                    ∧ get_auth_service_class (auth_external_type config1) w4 = (Ok cls, w5)
                end →
                make_config raw
                  (auth_spliced base (get_plugin_options internal)
                     (get_plugin_options <$> external)) w5
                = (Raise err, w6) →
                run = (Raise err, w6))))).
Proof.
  intros config_path sections override_options w0 w1 raw0 err Hload Hother run base.
  assert (Hrun := init_config_after_load config_path sections override_options
                    w0 raw0 w1 Hload).
  fold run in Hrun.
  unfold try_except, mbind, M_bind, bind, mret, M_ret, ret, lift in Hrun.
  split.
  - intros w2 Hbuild. rewrite Hrun, Hbuild. by apply exit_on_config_error_passes.
  - intros overrides w2 Hbuild raw. rewrite Hbuild in Hrun. cbv beta iota zeta in Hrun.
    fold raw base in Hrun. split.
    + intros w3 Hpass1. rewrite Hrun, Hpass1. by apply exit_on_config_error_passes.
    + intros config1 w3 Hin Hpass1. rewrite Hpass1 in Hrun.
      rewrite (bool_decide_eq_true_2 _ Hin) in Hrun. split.
      * intros w4 Hinternal. rewrite Hrun, Hinternal.
        by apply exit_on_config_error_passes.
      * intros internal w4 Hinternal. rewrite Hinternal in Hrun.
        subst base. rewrite (scheme_set_auth_internal _ _ Hin) in Hrun. split.
        -- intros w5 Hne Hexternal.
           destruct (str_truthy (auth_external_type config1)) eqn:Htruthy.
           ++ rewrite Hrun, Hexternal. by apply exit_on_config_error_passes.
           ++ by apply str_truthy_false in Htruthy.
        -- intros [cls|] w5 w6 Hext Hpass2; cbn [fmap option_fmap option_map] in Hpass2.
           ++ destruct Hext as [Hne Hexternal].
              destruct (str_truthy (auth_external_type config1)) eqn:Htruthy.
              ** rewrite Hrun, Hexternal, scheme_set_auth_external, Hpass2.
                 by apply exit_on_config_error_passes.
              ** by apply str_truthy_false in Htruthy.
           ++ destruct Hext as [Hempty ->]. rewrite Hempty in Hrun.
              cbn [str_truthy] in Hrun. rewrite Hrun, Hpass2.
              by apply exit_on_config_error_passes.
Qed.

Lemma init_config_other_exceptions_pass_witness :
  @_init_config (demo_collaborators_loading (demo_auth_doc "broken"))
    "/etc/kvmd/main.yaml" ["kvmd"] [] demo_start
  = (Raise (AttributeError "module 'kvmd.plugins.auth.broken' has no attribute 'Plugin'"),
     mkDemoWorld [] [(demo_auth_doc "broken", _get_config_scheme ["kvmd"])]).
Proof.
  pose proof (@init_config_other_exceptions_pass
                (demo_collaborators_loading (demo_auth_doc "broken"))
                "/etc/kvmd/main.yaml" ["kvmd"] [] demo_start demo_start
                (demo_auth_doc "broken")
                (AttributeError "module 'kvmd.plugins.auth.broken' has no attribute 'Plugin'")
                eq_refl eq_refl) as Hall.
  cbv zeta in Hall. destruct Hall as [_ Hsteps].
  destruct (Hsteps [] demo_start eq_refl) as [_ Hpass1].
  assert (Hin : "kvmd" ∈ ["kvmd"]) by apply list_elem_of_here.
  destruct (Hpass1 (mkDemoConfig 1 "broken" "")
              (mkDemoWorld [] [(demo_auth_doc "broken", _get_config_scheme ["kvmd"])])
              Hin eq_refl) as [Hinternal _].
  apply Hinternal. vm_compute. reflexivity.
Defined.

(** X16. With the empty list of sections the full scheme is resolved,
    [kvmd] and its two auth selectors included, but "kvmd" is not [in]
    the empty list: there is one pass, no plugin is looked up, and the
    scheme of that pass has neither the [internal] nor the [external]
    slot. *)
Theorem init_config_empty_sections `{Collaborators} :
  ∀ (config_path : string) (override_options : list string)
    (w0 w1 w2 : world) (raw0 overrides : dict),
    load_yaml_file (expanduser config_path) w0 = (Ok raw0, w1) →
    build_raw_from_options override_options w1 = (Ok overrides, w2) →
    _init_config config_path [] override_options w0
    = try_except
        (make_config (_merge_dicts raw0 overrides) (_get_config_scheme []))
        exit_on_config_error w2
    ∧ dict_get (_get_config_scheme []) "kvmd" = Some (SDict scheme_kvmd)
    ∧ (∃ auth, dict_get scheme_kvmd "auth" = Some (SDict auth)
               ∧ is_Some (dict_get auth "internal_type")
               ∧ is_Some (dict_get auth "external_type"))
    ∧ auth_slot (_get_config_scheme []) "internal" = None
    ∧ auth_slot (_get_config_scheme []) "external" = None.
Proof.
  intros config_path override_options w0 w1 w2 raw0 overrides Hload Hbuild.
  split; [|split; [reflexivity|split; [|split; reflexivity]]].
  - apply (init_config_one_pass _ _ _ _ _ _ _ _ (not_elem_of_nil _) Hload Hbuild).
  - exists scheme_kvmd_auth. split; [reflexivity|]. by split; eexists.
Qed.

Lemma init_config_empty_sections_witness :
  @_init_config demo_collaborators "/etc/kvmd/main.yaml" [] [] demo_start
  = (Ok (mkDemoConfig 1 "htpasswd" ""), mkDemoWorld [] [([], _get_config_scheme [])]).
Proof.
  refine (eq_trans (proj1 (@init_config_empty_sections demo_collaborators
            "/etc/kvmd/main.yaml" [] demo_start demo_start demo_start [] [] _ _)) _);
    reflexivity.
Defined.

(** X17. The assignment [scheme["kvmd"]["auth"][slot] = options] works
    on the scheme of every list of sections that selects "kvmd", and on
    the full scheme of the empty list; on any other scheme it raises
    [KeyError('kvmd')], which is what the guard of [_init_config]
    keeps away. *)
Theorem scheme_set_auth_needs_kvmd :
  ∀ (sections : list string) (slot : string) (options : scheme),
    ("kvmd" ∈ sections ∨ sections = [] →
     ∃ sch,
       scheme_set_auth (_get_config_scheme sections) slot options = Ok sch
       ∧ auth_slot sch slot = Some (SDict options)
       ∧ ∀ key, key ≠ "kvmd" →
           dict_get sch key = dict_get (_get_config_scheme sections) key)
    ∧ ("kvmd" ∉ sections → sections ≠ [] →
       scheme_set_auth (_get_config_scheme sections) slot options
       = Raise (KeyError "kvmd")).
Proof.
  intros sections slot options. split.
  - intros Hsel.
    assert (Hkvmd : dict_get (_get_config_scheme sections) "kvmd" = Some (SDict scheme_kvmd)).
    { destruct Hsel as [Hin| ->]; [by apply get_config_scheme_kvmd | reflexivity]. }
    unfold scheme_set_auth, scheme_getitem. rewrite Hkvmd.
    change (dict_get scheme_kvmd "auth") with (Some (SDict scheme_kvmd_auth)).
    cbv beta iota. eexists. split; [reflexivity|]. split.
    + unfold auth_slot. rewrite dict_get_set_eq. cbv beta iota.
      rewrite dict_get_set_eq. cbv beta iota. apply dict_get_set_eq.
    + intros key Hne. by apply dict_get_set_ne.
  - intros Hnotin Hne. destruct sections as [|section others]; [done|].
    unfold scheme_set_auth, scheme_getitem, _get_config_scheme.
    rewrite dict_get_filter_key. by rewrite decide_False.
Qed.

Lemma scheme_set_auth_needs_kvmd_witness :
  scheme_set_auth (_get_config_scheme ["logging"; "ipmi"]) "internal" []
  = Raise (KeyError "kvmd").
Proof.
  apply (proj2 (scheme_set_auth_needs_kvmd ["logging"; "ipmi"] "internal" [])); [|done].
  intros Hin.
  repeat (apply elem_of_cons in Hin as [Hin|Hin]; [discriminate Hin|]).
  by apply elem_of_nil in Hin.
Defined.

(** ** [init]: dump mode, and what a return means *)



(** X19. [init] returns only on the path through everything: the
    effective argument list (the given one, or [sys.argv] when it is
    missing or empty) is not empty, the parser returned, dump mode was
    off, [_init_config] returned the configuration that [init] hands
    back, and logging was configured from that very configuration. *)
Theorem init_return_means_configured `{Frontend} :
  ∀ (prog description : option string) (add_help : bool)
    (sections argv : option (list string)) (w0 w' : world)
    (args_parser : ArgumentParser) (remaining : list string) (config : ConfigSection),
    init prog description add_help sections argv w0
    = (Ok (args_parser, remaining, config), w') →
    ∃ argv0 rest options w1 w2,
      or_list argv (sys_argv w0) = argv0 :: rest
      ∧ args_parser = make_args_parser (or_str prog argv0) description add_help
      ∧ parse_known_args args_parser (argv0 :: rest) w0 = (Ok (options, remaining), w1)
      ∧ cli_dump_config options = false
      ∧ _init_config (cli_config_path options) (or_list sections [])
          (cli_set_options options) w1 = (Ok config, w2)
      ∧ dict_config config (capture_warnings w2) = (Ok (), w').
Proof.
  intros prog description add_help sections argv w0 w' args_parser remaining config.
  unfold init. destruct (or_list argv (sys_argv w0)) as [|argv0 rest]; [done|].
  cbv beta iota zeta. unfold mbind, M_bind, bind, mret, M_ret, ret.
  destruct (parse_known_args _ (argv0 :: rest) w0) as [[[options remaining']|err] w1]
    eqn:Hparse; [|done].
  cbn [fst snd].
  destruct (_init_config _ _ _ w1) as [[config'|err] w2] eqn:Hconfig; [|done].
  destruct (cli_dump_config options) eqn:Hdump; [done|].
  destruct (dict_config config' (capture_warnings w2)) as [[[]|err] w3] eqn:Hlog; [|done].
  intros [= <- <- <- <-].
  by exists argv0, rest, options, w1, w2.
Qed.

Lemma init_return_means_configured_witness :
  ∃ argv0 rest options w1 w2,
    or_list None (@sys_argv _ demo_frontend demo_start) = argv0 :: rest
    ∧ "kvmd" = @make_args_parser _ demo_frontend (or_str None argv0) None true
    ∧ @parse_known_args _ demo_frontend "kvmd" (argv0 :: rest) demo_start
      = (Ok (options, ["kvmd"]), w1)
    ∧ cli_dump_config options = false
    ∧ @_init_config demo_collaborators (cli_config_path options)
        (or_list (Some ["logging"; "ipmi"]) []) (cli_set_options options) w1
      = (Ok (mkDemoConfig 1 "htpasswd" ""), w2)
    ∧ @dict_config _ demo_frontend (mkDemoConfig 1 "htpasswd" "")
        (@capture_warnings _ demo_frontend w2)
      = (Ok (), mkDemoWorld [] [([], _get_config_scheme ["logging"; "ipmi"])]).
Proof.
  apply (@init_return_means_configured demo_collaborators demo_frontend None None true
           (Some ["logging"; "ipmi"]) None demo_start).
  vm_compute. reflexivity.
Defined.

(** ** Splicing keeps the scheme sound *)

Lemma scheme_node_ok_SDict children :
  scheme_node_ok (SDict children)
  = bool_decide (NoDup (dict_keys children))
    && forallb (λ item, match item.2 with
                        | SOpt o => only_if_ok children o
                        | SDict _ => scheme_node_ok item.2
                        end) children.
Proof. reflexivity. Qed.

Lemma only_if_ok_set (children : scheme) key old sub o :
  dict_get children key = Some (SDict old) →
  only_if_ok (dict_set children key (SDict sub)) o = only_if_ok children o.
Proof.
  intros Hold. unfold only_if_ok.
  destruct (only_if_target (opt_only_if o)) as [target|]; [|done].
  destruct (decide (key = target)) as [<-|Hne].
  - by rewrite dict_get_set_eq, Hold.
  - by rewrite dict_get_set_ne.
Qed.

Lemma only_if_ok_app (children extra : scheme) o :
  only_if_ok children o = true → only_if_ok (children ++ extra) o = true.
Proof.
  unfold only_if_ok. destruct (only_if_target (opt_only_if o)) as [target|]; [|done].
  assert (Happ : ∀ v, dict_get children target = Some v →
                      dict_get (children ++ extra) target = Some v).
  { intros v. induction children as [|[k w] children IH]; cbn; [done|].
    destruct (decide (k = target)); [done | apply IH]. }
  destruct (dict_get children target) as [v|] eqn:Hget; [|done].
  by rewrite (Happ v eq_refl).
Qed.

Lemma forallb_impl {A} (f g : A → bool) (l : list A) :
  (∀ x, x ∈ l → f x = true → g x = true) → forallb f l = true → forallb g l = true.
Proof.
  induction l as [|x l IH]; [done|]. cbn. intros Himpl [Hx Hl]%andb_prop.
  rewrite (Himpl x (list_elem_of_here _ _) Hx). cbn.
  apply IH; [|done]. intros y Hy. by apply Himpl, list_elem_of_further.
Qed.

(** Replacing a section by a sound section keeps a scheme sound. *)
Lemma scheme_ok_set_section (children : scheme) key old sub :
  scheme_node_ok (SDict children) = true →
  dict_get children key = Some (SDict old) →
  scheme_node_ok (SDict sub) = true →
  scheme_node_ok (SDict (dict_set children key (SDict sub))) = true.
Proof.
  intros Hok Hold Hsub. rewrite scheme_node_ok_SDict in Hok |- *.
  apply andb_prop in Hok as [Hnd Hall].
  apply andb_true_intro. split.
  - rewrite dict_keys_set, decide_True; [done|]. by eapply dict_get_Some_key.
  - set (children' := dict_set children key (SDict sub)).
    assert (Hitems : ∀ rest,
      forallb (λ item, match item.2 with
                       | SOpt o => only_if_ok children o
                       | SDict _ => scheme_node_ok item.2
                       end) rest = true →
      forallb (λ item, match item.2 with
                       | SOpt o => only_if_ok children' o
                       | SDict _ => scheme_node_ok item.2
                       end) (dict_set rest key (SDict sub)) = true).
    { induction rest as [|[k [o|d]] rest IH]; cbn [forallb dict_set snd].
      - intros _. by rewrite Hsub.
      - intros [Ho Hrest]%andb_prop. destruct (decide (k = key)); cbn [forallb snd].
        + rewrite Hsub. cbn. eapply forallb_impl; [|exact Hrest].
          intros [k' [o'|d']] _; cbn [snd]; [|done].
          subst children'. by rewrite (only_if_ok_set _ _ _ _ _ Hold).
        + subst children'. rewrite (only_if_ok_set _ _ _ _ _ Hold), Ho. cbn.
          by apply IH.
      - intros [Hd Hrest]%andb_prop. destruct (decide (k = key)); cbn [forallb snd].
        + rewrite Hsub. cbn. eapply forallb_impl; [|exact Hrest].
          intros [k' [o'|d']] _; cbn [snd]; [|done].
          subst children'. by rewrite (only_if_ok_set _ _ _ _ _ Hold).
        + rewrite Hd. cbn. by apply IH. }
    by apply Hitems.
Qed.

(** Adding a sound section under a new name keeps a scheme sound. *)
Lemma scheme_ok_add_section (children : scheme) key sub :
  scheme_node_ok (SDict children) = true →
  key ∉ dict_keys children →
  scheme_node_ok (SDict sub) = true →
  scheme_node_ok (SDict (children ++ [(key, SDict sub)])) = true.
Proof.
  intros Hok Hfresh Hsub. rewrite scheme_node_ok_SDict in Hok |- *.
  apply andb_prop in Hok as [Hnd Hall].
  apply andb_true_intro. split.
  - apply bool_decide_eq_true. apply bool_decide_eq_true in Hnd.
    unfold dict_keys in *. rewrite fmap_app. apply NoDup_app. split; [done|]. split.
    + intros k Hk ->%list_elem_of_singleton. done.
    + apply NoDup_singleton.
  - rewrite forallb_app. apply andb_true_intro. split.
    + eapply forallb_impl; [|exact Hall].
      intros [k [o|d]] _; cbn [snd]; [|done]. apply only_if_ok_app.
    + cbn [forallb snd]. by rewrite Hsub.
Qed.

(** X20. Splicing keeps the scheme sound: when the option fragments of
    the selected plugins are sound, so is the scheme [_init_config]
    hands to pass 2 - in particular the slots [internal] and [external]
    do not clash with a name the [auth] section already has. *)
Theorem auth_spliced_sound :
  ∀ (sections : list string) (internal : scheme) (external : option scheme),
    "kvmd" ∈ sections →
    scheme_node_ok (SDict internal) = true →
    (∀ options, external = Some options → scheme_node_ok (SDict options) = true) →
    scheme_node_ok (SDict (auth_spliced (_get_config_scheme sections) internal external))
    = true.
Proof.
  intros sections internal external Hin Hinternal Hexternal. unfold auth_spliced.
  eapply scheme_ok_set_section;
    [apply get_config_scheme_ok | by apply get_config_scheme_kvmd |].
  eapply (scheme_ok_set_section scheme_kvmd "auth" scheme_kvmd_auth);
    [by vm_compute | reflexivity |].
  assert (Hwith_internal :
    scheme_node_ok (SDict (scheme_kvmd_auth ++ [("internal", SDict internal)])) = true).
  { apply scheme_ok_add_section; [by vm_compute | | done].
    apply (bool_decide_unpack _). by vm_compute. }
  destruct external as [options|].
  - rewrite app_assoc. apply scheme_ok_add_section; [done | | by apply Hexternal].
    apply (bool_decide_unpack _). by vm_compute.
  - by rewrite app_nil_r.
Qed.

Lemma auth_spliced_sound_witness :
  scheme_node_ok
    (SDict (auth_spliced (_get_config_scheme ["logging"; "kvmd"])
              (get_plugin_options htpasswd_plugin) None)) = true.
Proof.
  apply auth_spliced_sound; [|by vm_compute|done].
  apply (bool_decide_unpack _). by vm_compute.
Defined.
